(** * THREE.Terrain: heightmap codec, Gaussian box blur and terrain pipeline

    A shallow embedding of [src/images.ts], [src/weightedBoxBlurGaussian.ts]
    and [src/terrain.ts], with the properties the specification states
    about them.

    Numbers.  JavaScript numbers are modelled by exact rationals extended
    with the three non-finite values that division by zero and reads past
    the end of a typed array introduce ([Infinity], [-Infinity], [NaN]).
    Rounding of binary64 arithmetic and the sign of zero are not modelled:
    every finite operation is exact and zero is the positive zero.

    Arrays.  A typed array or a vertex array is a list; a read outside it
    is [undefined], a store outside a typed array is ignored.  Functions
    that change their arguments return the new contents.

    Exceptions.  A function that can throw returns an [option]; [None] is
    the exception.

    Surroundings.  The canvas of the browser, the plane geometry of
    three.js and the filters of [./filters] are parameters, gathered in
    the record [Env]. *)

From Stdlib Require Import ZArith QArith Qcanon Qround Lia Lqa List Bool.
From stdpp Require Import base numbers list.
Import ListNotations.
Open Scope Z_scope.

(** ** JavaScript numbers *)

Inductive num : Type :=
  | Fin (q : Qc)
  | PInf
  | NInf
  | NaN.

Definition ofZ (z : Z) : num := Fin (Qc_of_Z z).

Definition is_finite (a : num) : bool :=
  match a with Fin _ => true | _ => false end.

Definition is_nan (a : num) : bool :=
  match a with NaN => true | _ => false end.

(** The infinity whose sign is the outcome of a comparison with zero;
    [0 * Infinity] and [0 / 0] are [NaN]. *)
Definition inf_of_sign (c : comparison) : num :=
  match c with Gt => PInf | Lt => NInf | Eq => NaN end.

Definition neg (a : num) : num :=
  match a with
  | Fin q => Fin (- q)%Qc
  | PInf => NInf
  | NInf => PInf
  | NaN => NaN
  end.

Definition add (a b : num) : num :=
  match a, b with
  | NaN, _ | _, NaN => NaN
  | Fin x, Fin y => Fin (x + y)%Qc
  | PInf, NInf | NInf, PInf => NaN
  | PInf, _ | _, PInf => PInf
  | NInf, _ | _, NInf => NInf
  end.

Definition sub (a b : num) : num := add a (neg b).

Definition mul (a b : num) : num :=
  match a, b with
  | NaN, _ | _, NaN => NaN
  | Fin x, Fin y => Fin (x * y)%Qc
  | Fin x, PInf | PInf, Fin x => inf_of_sign (x ?= 0)%Qc
  | Fin x, NInf | NInf, Fin x => inf_of_sign (0 ?= x)%Qc
  | PInf, PInf | NInf, NInf => PInf
  | PInf, NInf | NInf, PInf => NInf
  end.

Definition div (a b : num) : num :=
  match a, b with
  | NaN, _ | _, NaN => NaN
  | Fin x, Fin y =>
      if decide (y = 0%Qc) then inf_of_sign (x ?= 0)%Qc else Fin (x / y)%Qc
  | Fin _, PInf | Fin _, NInf => Fin 0%Qc
  | PInf, Fin y => if decide (y < 0)%Qc then NInf else PInf
  | NInf, Fin y => if decide (y < 0)%Qc then PInf else NInf
  | _, _ => NaN
  end.

(** [a < b], [a > b] and [a <= b]; every comparison with [NaN] is
    false. *)
Definition lt (a b : num) : bool :=
  match a, b with
  | NaN, _ | _, NaN => false
  | Fin x, Fin y => bool_decide (x < y)%Qc
  | _, NInf => false
  | NInf, _ => true
  | PInf, _ => false
  | _, PInf => true
  end.

Definition gt (a b : num) : bool := lt b a.

Definition le (a b : num) : bool :=
  match a, b with
  | NaN, _ | _, NaN => false
  | Fin x, Fin y => bool_decide (x <= y)%Qc
  | NInf, _ => true
  | _, PInf => true
  | _, _ => false
  end.

(** Truthiness of a number: [0] and [NaN] are falsy. *)
Definition truthy (a : num) : bool :=
  match a with
  | Fin q => negb (bool_decide (q = 0%Qc))
  | NaN => false
  | _ => true
  end.


(** [Math.round]: the nearest integer, ties towards [+Infinity]. *)
Definition Math_round (a : num) : num :=
  match a with
  | Fin q => ofZ (Qfloor (q + Q2Qc (1 # 2))%Qc)
  | _ => a
  end.

(** The value of a finite number as a fraction in lowest terms. *)
Definition valueOf (a : num) : option Q :=
  match a with Fin q => Some (this q) | _ => None end.

(** [Math.abs]. *)
Definition Math_abs (a : num) : num :=
  match a with
  | Fin q => if decide (q < 0)%Qc then Fin (- q)%Qc else a
  | NInf => PInf
  | _ => a
  end.

(** Conversion performed by a store into a [Uint8ClampedArray]: [NaN]
    becomes [0], the value is clamped to [0, 255] and rounded to the
    nearest integer, ties to even. *)
Definition ToUint8Clamp (a : num) : Z :=
  match a with
  | NaN | NInf => 0
  | PInf => 255
  | Fin q =>
      if decide (q <= 0)%Qc then 0
      else if decide (Qc_of_Z 255 <= q)%Qc then 255
      else
        let f := Qfloor q in
        match (q - Qc_of_Z f ?= Q2Qc (1 # 2))%Qc with
        | Lt => f
        | Gt => f + 1
        | Eq => if Z.even f then f else f + 1
        end
  end.

(** [ToInt32] and the left shift [<<] of 32-bit integers. *)
Definition ToInt32 (z : Z) : Z := (z + 2 ^ 31) mod 2 ^ 32 - 2 ^ 31.

Definition shl (x n : Z) : Z := ToInt32 (Z.shiftl (ToInt32 x) (n mod 32)).

(** Conversion performed by a store into an [Int16Array]. *)
Definition ToInt16 (z : Z) : Z := (z + 2 ^ 15) mod 2 ^ 16 - 2 ^ 15.

(** ** Arrays and loops *)

(** [a[i]]: [None] stands for [undefined], the result of a read outside
    the array. *)
Definition aget {A} (a : list A) (i : Z) : option A :=
  if decide (0 <= i) then a !! Z.to_nat i else None.

(** [a[i] = v] on a typed array: a store outside the array is ignored. *)
Definition aset {A} (a : list A) (i : Z) (v : A) : list A :=
  if decide (0 <= i) then <[Z.to_nat i := v]> a else a.

(** An [undefined] operand of an arithmetic operator is [NaN]. *)
Definition toNum (o : option num) : num := default NaN o.

(** [for (j = lo; j < hi; j++) s = body(j, s)]. *)
Definition for_range {S} (lo hi : Z) (body : Z -> S -> S) (s : S) : S :=
  fold_left (fun s j => body j s) (seqZ lo (hi - lo)) s.

(** The same loop when the body can throw: [None] is an exception that
    leaves the loop. *)
Definition for_rangeM {S} (lo hi : Z) (body : Z -> S -> option S) (s : S)
  : option S :=
  for_range lo hi (fun j os => os ≫= body j) (Some s).

(** ** Options and images ([src/images.ts]) *)

(** An [ImageData]: [img_data] holds four bytes (R, G, B, A) per pixel,
    row after row. *)
Record ImageData : Type := mkImageData {
  img_width : Z;
  img_height : Z;
  img_data : list Z
}.

(** The vertex array of a plane geometry is modelled by the list of the
    [z] coordinates of its vertices; no modelled function reads or writes
    [x] or [y]. *)
Definition Vertices : Type := list num.

(** [options.heightmap]: an image or canvas ([typeof] is ["object"]), a
    generator function, or anything else.  A generator and the [after]
    hook are called with the vertices and the options record itself; they
    are represented by their effect on the vertices. *)
Inductive Heightmap : Type :=
  | HmImage (src : ImageData)
  | HmGenerator (f : Vertices -> Vertices)
  | HmOther.

(** The geometry of a mesh handed in through [options.mesh], when it is a
    [PlaneGeometry]. *)
Record PlaneGeometry : Type := mkPlaneGeometry {
  geo_widthSegments : Z;
  geo_heightSegments : Z;
  geo_vertices : Vertices
}.

(** The fields of [TerrainOptions] that the modelled code reads.
    [None] in [maxHeight] and [minHeight] is [undefined]. *)
Record TerrainOptions : Type := mkTerrainOptions {
  after : option (Vertices -> Vertices);
  heightmap : Heightmap;
  maxHeight : option num;
  minHeight : option num;
  steps : num;
  turbulent : bool;
  useBufferGeometry : bool;
  widthSegments : Z;
  width : num;
  heightSegments : Z;
  height : num;
  mesh : option PlaneGeometry
}.

(** What the repository takes from its surroundings: the canvas of the
    browser, the plane geometry of three.js and the filters of
    [./filters], whose source is not part of the modelled files.

    [drawImage src W H] is the content of a [W] x [H] canvas after
    [ctx.drawImage(src, 0, 0, W, H)], as read back by
    [ctx.getImageData(0, 0, W, H)]; [None] when the platform throws.
    [newPlane width height ws hs] is the vertex array of
    [new PlaneGeometry(width, height, ws, hs)]. *)
Record Env : Type := mkEnv {
  drawImage : ImageData -> Z -> Z -> option ImageData;
  newPlane : num -> num -> Z -> Z -> Vertices;
  applyTurbulenceTurbulence : Vertices -> TerrainOptions -> Vertices;
  applyTerrainStep : Vertices -> num -> Vertices;
  applyTerrainSmooth : Vertices -> TerrainOptions -> Vertices;
  applyTerrainClamp : Vertices -> TerrainOptions -> Vertices
}.

(** [(data[p] << 16) + (data[p + 1] << 8) + data[p + 2]]: the shifts turn
    [undefined] into [0], the last addition turns it into [NaN]. *)
Definition packed (data : list Z) (p : Z) : num :=
  add (ofZ (shl (default 0 (aget data (p + 0))) 16
            + shl (default 0 (aget data (p + 1))) 8))
      (toNum (ofZ <$> aget data (p + 2))).

(** The value [fromHeightmap] assigns to [vert.z]. *)
Definition decodePixel (data : list Z) (p : Z) (spread minH : num) : num :=
  add (mul (div (packed data p) (ofZ 16777215)) spread) minH.

(** The value [toHeightmap] computes for a sample, before it is stored. *)
Definition greyLevel (z minH spread : num) : num :=
  Math_round (mul (div (sub z minH) spread) (ofZ 255)).

(** The bytes of pixel [i] of [data] are [v], [v], [v], 255. *)
Definition greyPixel (data : list Z) (i v : Z) : Prop :=
  aget data (i * 4) = Some v /\ aget data (i * 4 + 1) = Some v
  /\ aget data (i * 4 + 2) = Some v /\ aget data (i * 4 + 3) = Some 255.

(** The range [toHeightmap] encodes with, as the pair [(max, min)]. *)
Definition encodingRange (g : Vertices) (options : TerrainOptions)
  : num * num :=
  let hasMax := bool_decide (is_Some (maxHeight options)) in
  let hasMin := bool_decide (is_Some (minHeight options)) in
  let max := if hasMax then toNum (maxHeight options) else NInf in
  let min := if hasMin then toNum (minHeight options) else PInf in
  if negb hasMax || negb hasMin then
    let '(max2, min2) :=
      fold_left (fun '(max2, min2) z =>
                   (if gt z max2 then z else max2,
                    if lt z min2 then z else min2))
                g (max, min) in
    (if hasMax then max else max2, if hasMin then min else min2)
  else (max, min).

(** The greatest and the least sample of a field, as the loop of
    [toHeightmap] finds them from [-Infinity] and [Infinity]. *)
Definition fieldMax (g : Vertices) : num :=
  fold_left (fun max2 z => if gt z max2 then z else max2) g NInf.

Definition fieldMin (g : Vertices) : num :=
  fold_left (fun min2 z => if lt z min2 then z else min2) g PInf.

Section Images.
Variable E : Env.

(** [fromHeightmap].  The canvas is created with [widthSegments] x
    [heightSegments] pixels, and [imgdata] is what the platform reads back
    from it.  [None] stands for an exception: [drawImage] throws, or
    [verts[vertIndex]] is [undefined] and the assignment to its [z]
    throws. *)
Definition fromHeightmap (verts : Vertices) (options : TerrainOptions)
  : option Vertices :=
  src ← (match heightmap options with
         | HmImage src => Some src
         | _ => None
         end);
  imgdata ← drawImage E src (widthSegments options) (heightSegments options);
  let spread := sub (toNum (maxHeight options)) (toNum (minHeight options)) in
  let data := img_data imgdata in
  for_rangeM 0 (img_width imgdata) (fun x verts =>
    for_rangeM 0 (img_height imgdata) (fun y verts =>
      let vertIndex := x * img_height imgdata + y in
      let pixelIndex := vertIndex * 4 in
      _ ← aget verts vertIndex;
      Some (aset verts vertIndex
              (decodePixel data pixelIndex spread
                 (toNum (minHeight options))))) verts) verts.

(** [toHeightmap].  The canvas it returns is represented by the image
    data put on it; [createImageData] yields transparent black and throws
    for an image without pixels.  [None] stands for an exception: that
    one, or [g[i]] is [undefined] and reading its [z] throws.  Segment
    counts are not negative. *)
Definition toHeightmap (g : Vertices) (options : TerrainOptions)
  : option ImageData :=
  let '(max, min) := encodingRange g options in
  let rows := heightSegments options + 1 in
  let cols := widthSegments options + 1 in
  let spread := sub max min in
  if decide (0 < cols /\ 0 < rows) then
    let data := replicate (Z.to_nat (4 * cols * rows)) 0 in
    data ← for_rangeM 0 rows (fun row data =>
      for_rangeM 0 cols (fun col data =>
        let i := row * cols + col in
        let idx := i * 4 in
        z ← aget g i;
        let v := ToUint8Clamp (greyLevel z min spread) in
        let data := aset data (idx + 2) v in
        let data := aset data (idx + 1) v in
        let data := aset data idx v in
        Some (aset data (idx + 3) 255)) data) data;
    Some {| img_width := cols; img_height := rows; img_data := data |}
  else None.
End Images.

Definition withHeightmap (options : TerrainOptions) (h : Heightmap)
  : TerrainOptions :=
  {| after := after options;
     heightmap := h;
     maxHeight := maxHeight options;
     minHeight := minHeight options;
     steps := steps options;
     turbulent := turbulent options;
     useBufferGeometry := useBufferGeometry options;
     widthSegments := widthSegments options;
     width := width options;
     heightSegments := heightSegments options;
     height := height options;
     mesh := mesh options |}.

(** Encoding a field with [toHeightmap] and decoding the canvas it
    returns with [fromHeightmap], under the same options, into the
    vertices of a new plane, as the constructor of [Terrain] does. *)
Definition roundTrip (E : Env) (g : Vertices) (options : TerrainOptions)
  : option Vertices :=
  canvas ← toHeightmap g options;
  fromHeightmap E
    (newPlane E (width options) (height options)
       (widthSegments options) (heightSegments options))
    (withHeightmap options (HmImage canvas)).

(** [|z - z'| <= (maxHeight - minHeight) / 255]: one quantization unit. *)
Definition withinQuantum (z z' minH maxH : num) : bool :=
  le (Math_abs (sub z z')) (div (sub maxH minH) (ofZ 255)).

(** ** Gaussian blur by box blurs ([src/weightedBoxBlurGaussian.ts]) *)

(** The variables of one row (or column) of a box blur: the accumulator
    [val], the target index [ti], the two ends [li] and [ri] of the
    examined range, and the target channel. *)
Record Window : Type := mkWindow {
  val : num;
  ti : Z;
  li : Z;
  ri : Z;
  tcl : list num
}.

(** [boxesForGauss].  [Math.floor(Math.sqrt(x))] is the integer square
    root of the integer part of [x] (see [floor_sqrt_spec]); [wIdeal]
    itself is used nowhere else.  [sizes] is an [Int16Array].  With
    [boxCount = 0] the division is by zero, and the result is the empty
    array whatever it yields. *)
Definition boxesForGauss (sigma : Qc) (boxCount : nat) : list Z :=
  let n := Qc_of_Z (Z.of_nat boxCount) in
  let wIdeal2 := (Qc_of_Z 12 * sigma * sigma / n + 1)%Qc in
  let wl := Z.sqrt (Qfloor wIdeal2) in
  let wl := if decide (Z.rem wl 2 = 0) then wl - 1 else wl in
  let wu := wl + 2 in
  let mIdeal :=
    ((Qc_of_Z 12 * sigma * sigma - n * Qc_of_Z wl * Qc_of_Z wl
      - Qc_of_Z 4 * n * Qc_of_Z wl - Qc_of_Z 3 * n)
     / (Qc_of_Z (-4) * Qc_of_Z wl - Qc_of_Z 4))%Qc in
  let m := Qfloor (mIdeal + Q2Qc (1 # 2))%Qc in
  map (fun i => ToInt16 (if decide (i < m) then wl else wu))
      (seqZ 0 (Z.of_nat boxCount)).

(** [boxBlurH] reads the channel [scl] and writes the channel [tcl], whose
    content it returns; the two are distinct arrays.  [r] is an
    integer. *)
Definition boxBlurH (scl tcl0 : list num) (w h r : Z) : list num :=
  let iarr := div (ofZ 1) (ofZ (r + r + 1)) in
  for_range 0 h (fun i tcl0 =>
    let ti0 := i * w in
    let fv := toNum (aget scl ti0) in
    let lv := toNum (aget scl (ti0 + w - 1)) in
    let val0 := mul (ofZ (r + 1)) fv in
    let val0 :=
      for_range 0 r (fun j v => add v (toNum (aget scl (ti0 + j)))) val0 in
    let s := {| val := val0; ti := ti0; li := ti0; ri := ti0 + r;
                tcl := tcl0 |} in
    let s :=
      for_range 0 (r + 1) (fun _ s =>
        let v := add (val s) (sub (toNum (aget scl (ri s))) fv) in
        {| val := v; ti := ti s + 1; li := li s; ri := ri s + 1;
           tcl := aset (tcl s) (ti s) (mul v iarr) |}) s in
    let s :=
      for_range (r + 1) (w - r) (fun _ s =>
        let v := add (val s) (sub (toNum (aget scl (ri s)))
                                  (toNum (aget scl (li s)))) in
        {| val := v; ti := ti s + 1; li := li s + 1; ri := ri s + 1;
           tcl := aset (tcl s) (ti s) (mul v iarr) |}) s in
    let s :=
      for_range (w - r) w (fun _ s =>
        let v := add (val s) (sub lv (toNum (aget scl (li s)))) in
        {| val := v; ti := ti s + 1; li := li s + 1; ri := ri s;
           tcl := aset (tcl s) (ti s) (mul v iarr) |}) s in
    tcl s) tcl0.

(** [boxBlurV], likewise, column by column. *)
Definition boxBlurV (scl tcl0 : list num) (w h r : Z) : list num :=
  let iarr := div (ofZ 1) (ofZ (r + r + 1)) in
  for_range 0 w (fun i tcl0 =>
    let ti0 := i in
    let fv := toNum (aget scl ti0) in
    let lv := toNum (aget scl (ti0 + w * (h - 1))) in
    let val0 := mul (ofZ (r + 1)) fv in
    let val0 :=
      for_range 0 r (fun j v => add v (toNum (aget scl (ti0 + j * w)))) val0 in
    let s := {| val := val0; ti := ti0; li := ti0; ri := ti0 + r * w;
                tcl := tcl0 |} in
    let s :=
      for_range 0 (r + 1) (fun _ s =>
        let v := add (val s) (sub (toNum (aget scl (ri s))) fv) in
        {| val := v; ti := ti s + w; li := li s; ri := ri s + w;
           tcl := aset (tcl s) (ti s) (mul v iarr) |}) s in
    let s :=
      for_range (r + 1) (h - r) (fun _ s =>
        let v := add (val s) (sub (toNum (aget scl (ri s)))
                                  (toNum (aget scl (li s)))) in
        {| val := v; ti := ti s + w; li := li s + w; ri := ri s + w;
           tcl := aset (tcl s) (ti s) (mul v iarr) |}) s in
    let s :=
      for_range (h - r) h (fun _ s =>
        let v := add (val s) (sub lv (toNum (aget scl (li s)))) in
        {| val := v; ti := ti s + w; li := li s + w; ri := ri s;
           tcl := aset (tcl s) (ti s) (mul v iarr) |}) s in
    tcl s) tcl0.

(** The common shape of the two passes: the moving average along one
    line of [len] samples that starts at index [base] and advances by
    [stride].  A row of [boxBlurH] is the line [(i * w, 1, w)], a column
    of [boxBlurV] the line [(i, w, h)]; see [boxBlurH_lines] and
    [boxBlurV_lines]. *)
Definition blurLine (scl : list num) (base stride len r : Z)
    (tcl0 : list num) : list num :=
  let iarr := div (ofZ 1) (ofZ (r + r + 1)) in
  let fv := toNum (aget scl base) in
  let lv := toNum (aget scl (base + stride * (len - 1))) in
  let val0 := mul (ofZ (r + 1)) fv in
  let val0 :=
    for_range 0 r (fun j v => add v (toNum (aget scl (base + j * stride))))
      val0 in
  let s := {| val := val0; ti := base; li := base; ri := base + r * stride;
              tcl := tcl0 |} in
  let s :=
    for_range 0 (r + 1) (fun _ s =>
      let v := add (val s) (sub (toNum (aget scl (ri s))) fv) in
      {| val := v; ti := ti s + stride; li := li s; ri := ri s + stride;
         tcl := aset (tcl s) (ti s) (mul v iarr) |}) s in
  let s :=
    for_range (r + 1) (len - r) (fun _ s =>
      let v := add (val s) (sub (toNum (aget scl (ri s)))
                                (toNum (aget scl (li s)))) in
      {| val := v; ti := ti s + stride; li := li s + stride;
         ri := ri s + stride;
         tcl := aset (tcl s) (ti s) (mul v iarr) |}) s in
  let s :=
    for_range (len - r) len (fun _ s =>
      let v := add (val s) (sub lv (toNum (aget scl (li s)))) in
      {| val := v; ti := ti s + stride; li := li s + stride; ri := ri s;
         tcl := aset (tcl s) (ti s) (mul v iarr) |}) s in
  tcl s.

(** [boxBlur] changes both of its arrays; it is modelled by the pair of
    their contents [(scl, tcl)] when it returns.  The two arrays are
    distinct objects. *)
Definition boxBlur (scl tcl0 : list num) (w h r : Z) : list num * list num :=
  let tcl1 :=
    for_range 0 (Z.of_nat (length scl))
      (fun i t => aset t i (toNum (aget scl i))) tcl0 in
  let scl1 := boxBlurH tcl1 scl w h r in
  let tcl2 := boxBlurV scl1 tcl1 w h r in
  (scl1, tcl2).

(** [gaussianBoxBlur] as [GaussianBoxBlur] calls it, without [target]:
    a fresh [Float64Array] of the length of [src].  The result is the pair
    of [src] as the call leaves it and the returned [target].  [boxes[i]]
    is odd (see [boxesForGauss_odd]), so [(boxes[i] - 1) / 2] is the
    integer quotient. *)
Definition gaussianBoxBlur (src : list num) (w h : Z) (radius : Qc)
    (boxCount : nat) : list num * list num :=
  let target := replicate (length src) (Fin 0%Qc) in
  let boxes := boxesForGauss radius boxCount in
  for_range 0 (Z.of_nat boxCount) (fun i '(src, target) =>
    boxBlur src target w h ((default 0 (aget boxes i) - 1) / 2))
    (src, target).


(** ** The terrain and its normalization ([src/terrain.ts]) *)

(** The filters the pipeline can call. *)
Inductive Call : Type :=
  | CallTurbulence
  | CallStep (steps : num)
  | CallSmooth
  | CallClamp
  | CallAfter.

(** The geometry being normalized: its vertices and, as a record of the
    order of the calls, the filters applied to it so far.  The flags and
    the normals that [normalizeTerrain] refreshes at its end belong to
    three.js and are left out. *)
Record Geometry : Type := mkGeometry {
  vertices : Vertices;
  calls : list Call
}.

Definition invoke (c : Call) (f : Vertices -> Vertices) (g : Geometry)
  : Geometry :=
  {| vertices := f (vertices g); calls := calls g ++ [c] |}.

(** [x || d] on numbers. *)
Definition orZ (x d : Z) : Z := if decide (x = 0) then d else x.
Definition orNum (x d : num) : num := if truthy x then x else d.

(** The object [new Terrain(options)] builds: its four private dimension
    fields and the geometry of its mesh. *)
Record Terrain : Type := mkTerrain {
  this_widthSegments : Z;
  this_heightSegments : Z;
  this_width : num;
  this_height : num;
  this_geometry : Geometry
}.

(** [TerrainOptionsDefault], the options of a call without argument.  The
    generator [DiamondSquare] of [./generators] is a parameter. *)
Definition TerrainOptionsDefault (DiamondSquare : Vertices -> Vertices)
  : TerrainOptions :=
  {| after := None;
     heightmap := HmGenerator DiamondSquare;
     maxHeight := Some (ofZ 100);
     minHeight := Some (ofZ (-100));
     steps := ofZ 1;
     turbulent := false;
     useBufferGeometry := false;
     widthSegments := 63;
     width := ofZ 1024;
     heightSegments := 63;
     height := ofZ 1024;
     mesh := None |}.

Section TerrainClass.
Variable E : Env.

Definition normalizeTerrain (geometry : Geometry) (options : TerrainOptions)
  : Geometry :=
  let geometry :=
    if turbulent options then
      invoke CallTurbulence
        (fun v => applyTurbulenceTurbulence E v options) geometry
    else geometry in
  let geometry :=
    if truthy (steps options) && gt (steps options) (ofZ 1) then
      invoke CallSmooth (fun v => applyTerrainSmooth E v options)
        (invoke (CallStep (steps options))
           (fun v => applyTerrainStep E v (steps options)) geometry)
    else geometry in
  let geometry :=
    invoke CallClamp (fun v => applyTerrainClamp E v options) geometry in
  let geometry :=
    match after options with
    | Some f => invoke CallAfter f geometry
    | None => geometry
    end in
  geometry.

(** The constructor, called with an options record ([TerrainOptionsDefault]
    takes the place of a missing argument); [None] when an exception
    leaves it. *)
Definition Terrain_new (options : TerrainOptions) : option Terrain :=
  let widthSegments' := orZ (widthSegments options) 31 in
  let heightSegments' := orZ (heightSegments options) 31 in
  let width' := orNum (width options) (ofZ 64) in
  let height' := orNum (height options) (ofZ 64) in
  let verts :=
    match mesh options with
    | Some geometry =>
        if decide (geo_widthSegments geometry = widthSegments options
                   /\ geo_heightSegments geometry = heightSegments options)
        then map (fun _ => Fin 0%Qc) (geo_vertices geometry)
        else newPlane E (width options) (height options)
               (widthSegments options) (heightSegments options)
    | None =>
        newPlane E (width options) (height options)
          (widthSegments options) (heightSegments options)
    end in
  verts ← (match heightmap options with
           | HmImage _ => fromHeightmap E verts options
           | HmGenerator f => Some (f verts)
           | HmOther => Some verts
           end);
  let geometry :=
    normalizeTerrain {| vertices := verts; calls := [] |} options in
  Some {| this_widthSegments := widthSegments';
          this_heightSegments := heightSegments';
          this_width := width';
          this_height := height';
          this_geometry := geometry |}.
End TerrainClass.


(** ** Inputs the code is evaluated on *)

(** A resampler to run [drawImage] with on concrete images: nearest
    neighbour, the identity when the canvas has the size of the source.
    The browser's own filter is left open; the general statements below
    hold for every [Env]. *)
Definition pixelAt (img : ImageData) (x y : Z) : list Z :=
  let p := (y * img_width img + x) * 4 in
  map (fun c => default 0 (aget (img_data img) (p + c))) [0; 1; 2; 3].

Definition nearestNeighbour (src : ImageData) (W H : Z) : option ImageData :=
  if decide (0 < W /\ 0 < H) then
    Some {| img_width := W;
            img_height := H;
            img_data :=
              flat_map (fun y =>
                flat_map (fun x =>
                  pixelAt src (x * img_width src / W) (y * img_height src / H))
                  (seqZ 0 W))
                (seqZ 0 H) |}
  else None.

(** A plane to evaluate the code on: [(ws + 1) * (hs + 1)] vertices at
    [z = 0], the grid of a plane geometry with [ws] by [hs] segments. *)
Definition flatPlane (_ _ : num) (ws hs : Z) : Vertices :=
  replicate (Z.to_nat ((ws + 1) * (hs + 1))) (Fin 0%Qc).

(** An environment to evaluate the code in: nearest-neighbour drawing and
    filters that leave the vertices alone. *)
Definition testEnv : Env :=
  {| drawImage := nearestNeighbour;
     newPlane := flatPlane;
     applyTurbulenceTurbulence := fun v _ => v;
     applyTerrainStep := fun v _ => v;
     applyTerrainSmooth := fun v _ => v;
     applyTerrainClamp := fun v _ => v |}.


Definition whitePixel : ImageData :=
  {| img_width := 1; img_height := 1; img_data := [255; 255; 255; 255] |}.

(** Options for a grid of 2 x 2 samples with heights in [-100, 100]. *)
Definition twoByTwo (h : Heightmap) : TerrainOptions :=
  {| after := None;
     heightmap := h;
     maxHeight := Some (ofZ 100);
     minHeight := Some (ofZ (-100));
     steps := ofZ 1;
     turbulent := false;
     useBufferGeometry := false;
     widthSegments := 1;
     width := ofZ 1024;
     heightSegments := 1;
     height := ofZ 1024;
     mesh := None |}.

(** An image of 2 x 2 opaque pixels: black, two greys and white. *)
Definition fourGreys : ImageData :=
  {| img_width := 2;
     img_height := 2;
     img_data := [0; 0; 0; 255;  85; 85; 85; 255;
                  170; 170; 170; 255;  255; 255; 255; 255] |}.

(** Options for a grid of a single sample with heights in [0, 1]. *)
Definition unitRange : TerrainOptions :=
  {| after := None;
     heightmap := HmOther;
     maxHeight := Some (ofZ 1);
     minHeight := Some (ofZ 0);
     steps := ofZ 1;
     turbulent := false;
     useBufferGeometry := false;
     widthSegments := 0;
     width := ofZ 1024;
     heightSegments := 0;
     height := ofZ 1024;
     mesh := None |}.


(** A field of 3 x 3 samples: the squares 1, 4, ..., 81. *)
Definition nineSquares : list num :=
  [ofZ 1; ofZ 4; ofZ 9; ofZ 16; ofZ 25; ofZ 36; ofZ 49; ofZ 64; ofZ 81].

(** Order statements on canonical rationals, read on their fractions. *)
Ltac qc2q :=
  unfold Qcle, Qclt, Qcdiv, Qcminus, Qcplus, Qcmult, Qcopp, Qcinv, Q2Qc in *;
  simpl in *; rewrite ?Qred_correct in *.

(** ** Measures used to state what the blur computes *)

(** Twelve times the summed variance of a sequence of box filters: a box
    of width [b] has variance [(b * b - 1) / 12]. *)
Definition boxSquares (boxes : list Z) : Z :=
  foldr (fun b acc => b * b - 1 + acc) 0 boxes.






(** * Properties *)

(** ** Loops *)

Lemma for_range_empty {S} lo hi (body : Z -> S -> S) s :
  hi <= lo -> for_range lo hi body s = s.
Proof.
  intros Hle. unfold for_range. rewrite seqZ_nil by lia. reflexivity.
Qed.

Lemma for_range_first {S} lo hi (body : Z -> S -> S) s :
  lo < hi -> for_range lo hi body s = for_range (lo + 1) hi body (body lo s).
Proof.
  intros Hlt. unfold for_range. rewrite (seqZ_cons lo) by lia. simpl.
  do 2 f_equal; lia.
Qed.

Lemma for_range_last {S} lo hi (body : Z -> S -> S) s :
  lo <= hi ->
  for_range lo (hi + 1) body s = body hi (for_range lo hi body s).
Proof.
  intros Hle. unfold for_range.
  replace (hi + 1 - lo) with ((hi - lo) + 1) by lia.
  rewrite seqZ_app by lia. rewrite fold_left_app.
  rewrite (seqZ_cons _ 1) by lia. rewrite seqZ_nil by lia. simpl.
  f_equal. lia.
Qed.

(** The rule of the loop invariant: [P j s] holds of the state [s] before
    the iteration at [j]. *)
Lemma for_range_inv {S} (P : Z -> S -> Prop) lo hi (body : Z -> S -> S) s :
  lo <= hi ->
  P lo s ->
  (forall j s, lo <= j < hi -> P j s -> P (j + 1) (body j s)) ->
  P hi (for_range lo hi body s).
Proof.
  intros Hle H0 Hstep.
  assert (Hgen : forall n : nat, Z.of_nat n <= hi - lo ->
            P (lo + Z.of_nat n) (for_range lo (lo + Z.of_nat n) body s)).
  { induction n as [|n IH]; intros Hn.
    - rewrite Z.add_0_r. rewrite for_range_empty by lia. exact H0.
    - replace (lo + Z.of_nat (Datatypes.S n)) with (lo + Z.of_nat n + 1) by lia.
      rewrite for_range_last by lia. apply Hstep; [lia|]. apply IH. lia. }
  specialize (Hgen (Z.to_nat (hi - lo))).
  replace (lo + Z.of_nat (Z.to_nat (hi - lo))) with hi in Hgen by lia.
  apply Hgen. lia.
Qed.

(** The same rule for a loop that starts past its bound. *)
Lemma for_range_inv' {S} (P : Z -> S -> Prop) lo hi (body : Z -> S -> S) s :
  P lo s ->
  (forall j s, lo <= j < hi -> P j s -> P (j + 1) (body j s)) ->
  P (Z.max lo hi) (for_range lo hi body s).
Proof.
  intros H0 Hstep. destruct (Z_le_gt_dec lo hi) as [Hle|Hgt].
  - rewrite Z.max_r by lia. apply for_range_inv; assumption.
  - rewrite Z.max_l by lia. rewrite for_range_empty by lia. exact H0.
Qed.

Lemma for_rangeM_inv {S} (P : Z -> S -> Prop) lo hi
    (body : Z -> S -> option S) s :
  lo <= hi ->
  P lo s ->
  (forall j s, lo <= j < hi -> P j s ->
     exists s', body j s = Some s' /\ P (j + 1) s') ->
  exists s', for_rangeM lo hi body s = Some s' /\ P hi s'.
Proof.
  intros Hle H0 Hstep. unfold for_rangeM.
  apply (for_range_inv (fun j os => exists s', os = Some s' /\ P j s'));
    [assumption | eauto |].
  intros j os Hj (s' & -> & Hs'). simpl. apply Hstep; assumption.
Qed.

Lemma for_range_ext {S} lo hi (f g : Z -> S -> S) s :
  (forall j s, lo <= j < hi -> f j s = g j s) ->
  for_range lo hi f s = for_range lo hi g s.
Proof.
  intros Hfg. destruct (Z_le_gt_dec lo hi) as [Hle|Hgt].
  - apply (for_range_inv
             (fun j s' => s' = for_range lo j g s) lo hi f s Hle).
    + rewrite for_range_empty by lia. reflexivity.
    + intros j s' Hj ->. rewrite for_range_last by lia. apply Hfg. exact Hj.
  - rewrite !for_range_empty by lia. reflexivity.
Qed.

(** ** Arrays *)


Lemma aget_lt_Some {A} (a : list A) i :
  0 <= i < Z.of_nat (length a) -> exists x, aget a i = Some x.
Proof.
  intros Hi. unfold aget. rewrite decide_True by lia.
  destruct (lookup_lt_is_Some_2 a (Z.to_nat i)) as [x Hx]; [lia|]. eauto.
Qed.

Lemma aget_out {A} (a : list A) i :
  i < 0 \/ Z.of_nat (length a) <= i -> aget a i = None.
Proof.
  intros Hi. unfold aget. destruct (decide (0 <= i)); [|reflexivity].
  apply lookup_ge_None. lia.
Qed.

Lemma length_aset {A} (a : list A) i v : length (aset a i v) = length a.
Proof.
  unfold aset. destruct (decide (0 <= i)); [apply length_insert|reflexivity].
Qed.

Lemma aget_aset_eq {A} (a : list A) i v :
  0 <= i < Z.of_nat (length a) -> aget (aset a i v) i = Some v.
Proof.
  intros Hi. unfold aget, aset. rewrite !decide_True by lia.
  apply list_lookup_insert_eq. lia.
Qed.

Lemma aget_aset_ne {A} (a : list A) i j v :
  i <> j -> aget (aset a i v) j = aget a j.
Proof.
  intros Hne. unfold aget, aset.
  destruct (decide (0 <= j)); [|reflexivity].
  destruct (decide (0 <= i)); [|reflexivity].
  apply list_lookup_insert_ne. lia.
Qed.

Lemma aset_same {A} (a : list A) i v :
  aget a i = Some v -> aset a i v = a.
Proof.
  unfold aget, aset. destruct (decide (0 <= i)); [|reflexivity].
  apply list_insert_id.
Qed.

Lemma aset_out {A} (a : list A) i v :
  aget a i = None -> aset a i v = a.
Proof.
  unfold aget, aset. destruct (decide (0 <= i)); [|reflexivity].
  intros H. apply list_insert_ge. apply lookup_ge_None. exact H.
Qed.

Lemma aget_ext {A} (a b : list A) :
  length a = length b -> (forall i, aget a i = aget b i) -> a = b.
Proof.
  intros Hlen H. apply list_eq. intros n.
  specialize (H (Z.of_nat n)). unfold aget in H.
  rewrite !decide_True in H by lia. rewrite Nat2Z.id in H. exact H.
Qed.

(** ** The normalization pipeline *)

Lemma truthy_gt_one (s : num) :
  truthy s && gt s (ofZ 1) = gt s (ofZ 1).
Proof.
  destruct s as [q| | |]; simpl; try reflexivity.
  unfold gt, ofZ; simpl.
  destruct (bool_decide_reflect (Qc_of_Z 1 < q)%Qc) as [Hlt|Hnlt];
    [|apply andb_false_r].
  rewrite andb_true_r. rewrite bool_decide_eq_false_2; [reflexivity|].
  intros ->. revert Hlt. apply Qcle_not_lt. discriminate.
Qed.

(** Claim C6.  [normalizeTerrain] calls Turbulence, then Step and Smooth,
    then Clamp, then the [after] hook, in this order: Turbulence exactly
    when [options.turbulent] holds, Step followed by Smooth exactly when
    [options.steps > 1], Clamp always, the hook exactly when
    [options.after] is a function; and the vertices it leaves are those
    the called filters produce one after the other. *)
Theorem normalizeTerrain_fixed_order (E : Env) (geometry : Geometry)
    (options : TerrainOptions) :
  calls (normalizeTerrain E geometry options) =
    calls geometry
    ++ (if turbulent options then [CallTurbulence] else [])
    ++ (if gt (steps options) (ofZ 1)
        then [CallStep (steps options); CallSmooth] else [])
    ++ [CallClamp]
    ++ (match after options with Some _ => [CallAfter] | None => [] end)
  /\ vertices (normalizeTerrain E geometry options) =
       let v0 := vertices geometry in
       let v1 := if turbulent options
                 then applyTurbulenceTurbulence E v0 options else v0 in
       let v2 := if gt (steps options) (ofZ 1)
                 then applyTerrainSmooth E
                        (applyTerrainStep E v1 (steps options)) options
                 else v1 in
       let v3 := applyTerrainClamp E v2 options in
       match after options with Some f => f v3 | None => v3 end.
Proof.
  unfold normalizeTerrain. rewrite truthy_gt_one.
  destruct (turbulent options), (gt (steps options) (ofZ 1)),
    (after options); simpl; rewrite <- ?app_assoc; simpl; split; reflexivity.
Qed.

(** With the default options the pipeline calls Clamp alone. *)
Example normalizeTerrain_default (E : Env) (DiamondSquare : Vertices -> Vertices)
    (v : Vertices) :
  calls (normalizeTerrain E {| vertices := v; calls := [] |}
           (TerrainOptionsDefault DiamondSquare)) = [CallClamp].
Proof. reflexivity. Qed.

(** ** Construction *)




(** ** Decoding an image: [fromHeightmap] *)

Section FromHeightmap.
Variable E : Env.
Variable options : TerrainOptions.
Variable src img : ImageData.
Hypothesis Hsrc : heightmap options = HmImage src.
Hypothesis Hdraw :
  drawImage E src (widthSegments options) (heightSegments options)
  = Some img.

Let W := img_width img.
Let H := img_height img.
Let spread := sub (toNum (maxHeight options)) (toNum (minHeight options)).
Let decoded (k : Z) : num :=
  decodePixel (img_data img) (k * 4) spread (toNum (minHeight options)).

(** The two loops of [fromHeightmap] visit the indices [0 .. W * H - 1]
    once each, in increasing order; sample [k] receives the value
    decoded from the four bytes at [4 * k]; the other samples are left
    as they were. *)
Lemma fromHeightmap_samples (verts : Vertices) :
  0 <= W -> 0 <= H -> W * H <= Z.of_nat (length verts) ->
  exists verts',
    fromHeightmap E verts options = Some verts'
    /\ length verts' = length verts
    /\ (forall k, 0 <= k < W * H -> aget verts' k = Some (decoded k))
    /\ (forall k, W * H <= k -> aget verts' k = aget verts k).
Proof.
  intros HW HH Hlen. unfold fromHeightmap. rewrite Hsrc. simpl.
  rewrite Hdraw. simpl. fold W H spread.
  pose (P := fun (n : Z) (v : Vertices) =>
    length v = length verts
    /\ (forall k, 0 <= k < n -> aget v k = Some (decoded k))
    /\ (forall k, n <= k -> aget v k = aget verts k)).
  destruct (for_rangeM_inv (fun x v => P (x * H) v) 0 W
    (fun x verts0 =>
       for_rangeM 0 H (fun y verts1 =>
         aget verts1 (x * H + y) ≫= fun _ =>
         Some (aset verts1 (x * H + y)
                 (decodePixel (img_data img) ((x * H + y) * 4) spread
                    (toNum (minHeight options))))) verts0) verts)
    as (v & Hv & Hlv & Hin & Hout).
  - exact HW.
  - repeat split; intros k Hk; lia.
  - intros x v0 Hx HP.
    destruct (for_rangeM_inv (fun y v => P (x * H + y) v) 0 H
      (fun y verts1 =>
         aget verts1 (x * H + y) ≫= fun _ =>
         Some (aset verts1 (x * H + y)
                 (decodePixel (img_data img) ((x * H + y) * 4) spread
                    (toNum (minHeight options))))) v0)
      as (v1 & Hv1 & HP1).
    + exact HH.
    + rewrite Z.add_0_r. exact HP.
    + intros y v1 Hy (Hl1 & Hin1 & Hout1).
      assert (Hidx : 0 <= x * H + y < Z.of_nat (length v1)) by nia.
      destruct (aget_lt_Some v1 _ Hidx) as [z Hz]. rewrite Hz. simpl.
      eexists. split; [reflexivity|]. repeat split.
      * rewrite length_aset. exact Hl1.
      * intros k Hk. destruct (decide (k = x * H + y)) as [->|Hne].
        -- rewrite aget_aset_eq by exact Hidx. reflexivity.
        -- rewrite aget_aset_ne by congruence. apply Hin1. lia.
      * intros k Hk. rewrite aget_aset_ne by lia. apply Hout1. lia.
    + exists v1. split; [exact Hv1|].
      replace ((x + 1) * H) with (x * H + H) by lia. exact HP1.
  - exists v. split; [exact Hv|]. repeat split; assumption.
Qed.
End FromHeightmap.








(** [fromHeightmap] writes the first [W * H] samples only, where [W] and
    [H] are the sizes of the canvas it created.  With a canvas of
    [widthSegments] x [heightSegments] pixels, what [new OffscreenCanvas]
    is asked for, the last row and the last column of a grid of
    [(widthSegments + 1) * (heightSegments + 1)] samples do not fit: the
    samples from [widthSegments * heightSegments] on keep their values. *)
Lemma fromHeightmap_leaves_rest (E : Env) (options : TerrainOptions)
    (src img : ImageData) (verts : Vertices) :
  heightmap options = HmImage src ->
  drawImage E src (widthSegments options) (heightSegments options)
    = Some img ->
  img_width img = widthSegments options ->
  img_height img = heightSegments options ->
  0 <= widthSegments options -> 0 <= heightSegments options ->
  Z.of_nat (length verts)
    = (widthSegments options + 1) * (heightSegments options + 1) ->
  exists verts',
    fromHeightmap E verts options = Some verts'
    /\ forall k, widthSegments options * heightSegments options <= k ->
         aget verts' k = aget verts k.
Proof.
  intros Hsrc Hdraw HW HH Hws Hhs Hlen.
  destruct (fromHeightmap_samples E options src img Hsrc Hdraw verts)
    as (verts' & Hv & _ & _ & Hout); try (rewrite ?HW, ?HH; nia).
  exists verts'. split; [exact Hv|]. intros k Hk. apply Hout.
  rewrite HW, HH. exact Hk.
Qed.

(** Claim C3, at a grid of 2 x 2 samples and an image of 2 x 2 pixels.
    The canvas [fromHeightmap] reads is 1 x 1: only sample 0 is written,
    samples 1 to 3 keep the height 0 of the new plane, although pixel
    (1, 1), which the claim maps to sample [1 * 2 + 1], decodes to 100. *)
Theorem fromHeightmap_canvas_one_short :
  let options := twoByTwo (HmImage fourGreys) in
  let plane := flatPlane (width options) (height options)
                 (widthSegments options) (heightSegments options) in
  length plane = 4%nat
  /\ (img_width fourGreys, img_height fourGreys) = (2, 2)
  /\ (fun c => (img_width c, img_height c))
       <$> drawImage testEnv fourGreys (widthSegments options)
             (heightSegments options) = Some (1, 1)
  /\ map valueOf <$> fromHeightmap testEnv plane options
     = Some [Some (-100 # 1)%Q; Some 0%Q; Some 0%Q; Some 0%Q]
  /\ valueOf (decodePixel (img_data fourGreys) ((1 * 2 + 1) * 4)
                (sub (ofZ 100) (ofZ (-100))) (ofZ (-100)))
     = Some (100 # 1)%Q.
Proof.
  vm_compute. repeat split; reflexivity.
Qed.

(** ** Encoding a field: [toHeightmap] *)

Lemma le_refl_finite (a : num) : is_nan a = false -> le a a = true.
Proof.
  destruct a as [q| | |]; simpl; try reflexivity; try discriminate.
  intros _. apply bool_decide_eq_true_2. apply Qcle_refl.
Qed.

Lemma le_trans (a b c : num) :
  le a b = true -> le b c = true -> le a c = true.
Proof.
  destruct a as [x| | |], b as [y| | |], c as [z| | |]; simpl;
    try reflexivity; try discriminate.
  intros Hxy Hyz. apply bool_decide_eq_true in Hxy, Hyz.
  apply bool_decide_eq_true_2. eapply Qcle_trans; eassumption.
Qed.

Lemma lt_le (a b : num) : lt a b = true -> le a b = true.
Proof.
  destruct a as [x| | |], b as [y| | |]; simpl;
    try reflexivity; try discriminate.
  intros H. apply bool_decide_eq_true in H.
  apply bool_decide_eq_true_2. apply Qclt_le_weak. exact H.
Qed.

Lemma not_lt_le (a b : num) :
  is_nan a = false -> is_nan b = false -> lt a b = false -> le b a = true.
Proof.
  destruct a as [x| | |], b as [y| | |]; simpl;
    try reflexivity; try discriminate.
  intros _ _ H. apply bool_decide_eq_false in H.
  apply bool_decide_eq_true_2. apply Qcnot_lt_le. exact H.
Qed.

Lemma finite_not_nan (a : num) : is_finite a = true -> is_nan a = false.
Proof. destruct a; simpl; congruence. Qed.

Lemma fold_max_spec (g : Vertices) :
  Forall (fun z => is_finite z = true) g ->
  forall acc, is_nan acc = false ->
    let r := fold_left (fun max2 z => if gt z max2 then z else max2) g acc in
    (r = acc \/ In r g) /\ le acc r = true
    /\ Forall (fun z => le z r = true) g.
Proof.
  induction 1 as [|z g Hz Hg IH]; intros acc Hacc; simpl.
  - split; [left; reflexivity|]. split; [apply le_refl_finite, Hacc|].
    constructor.
  - pose proof (finite_not_nan z Hz) as Hzn.
    set (acc' := if gt z acc then z else acc).
    assert (Hacc' : is_nan acc' = false)
      by (unfold acc'; destruct (gt z acc); assumption).
    assert (Hle1 : le acc acc' = true).
    { unfold acc'. destruct (gt z acc) eqn:Hgt.
      - apply lt_le. exact Hgt.
      - apply le_refl_finite, Hacc. }
    assert (Hle2 : le z acc' = true).
    { unfold acc'. destruct (gt z acc) eqn:Hgt.
      - apply le_refl_finite, Hzn.
      - apply not_lt_le; assumption. }
    destruct (IH acc' Hacc') as (Hin & Hle & Hall).
    split; [|split].
    + destruct Hin as [->|Hin]; [|right; right; exact Hin].
      unfold acc'. destruct (gt z acc); [right; left|left]; reflexivity.
    + eapply le_trans; eassumption.
    + constructor; [eapply le_trans; eassumption | exact Hall].
Qed.

Lemma fold_min_spec (g : Vertices) :
  Forall (fun z => is_finite z = true) g ->
  forall acc, is_nan acc = false ->
    let r := fold_left (fun min2 z => if lt z min2 then z else min2) g acc in
    (r = acc \/ In r g) /\ le r acc = true
    /\ Forall (fun z => le r z = true) g.
Proof.
  induction 1 as [|z g Hz Hg IH]; intros acc Hacc; simpl.
  - split; [left; reflexivity|]. split; [apply le_refl_finite, Hacc|].
    constructor.
  - pose proof (finite_not_nan z Hz) as Hzn.
    set (acc' := if lt z acc then z else acc).
    assert (Hacc' : is_nan acc' = false)
      by (unfold acc'; destruct (lt z acc); assumption).
    assert (Hle1 : le acc' acc = true).
    { unfold acc'. destruct (lt z acc) eqn:Hlt.
      - apply lt_le. exact Hlt.
      - apply le_refl_finite, Hacc. }
    assert (Hle2 : le acc' z = true).
    { unfold acc'. destruct (lt z acc) eqn:Hlt.
      - apply le_refl_finite, Hzn.
      - apply not_lt_le; assumption. }
    destruct (IH acc' Hacc') as (Hin & Hle & Hall).
    split; [|split].
    + destruct Hin as [->|Hin]; [|right; right; exact Hin].
      unfold acc'. destruct (lt z acc); [right; left|left]; reflexivity.
    + eapply le_trans; eassumption.
    + constructor; [eapply le_trans; eassumption | exact Hall].
Qed.

(** On a field of finite samples that is not empty, [fieldMax] and
    [fieldMin] are its greatest and its least sample. *)
Lemma fieldMax_greatest (g : Vertices) :
  Forall (fun z => is_finite z = true) g -> g <> [] ->
  In (fieldMax g) g /\ Forall (fun z => le z (fieldMax g) = true) g.
Proof.
  intros Hfin Hne.
  destruct (fold_max_spec g Hfin NInf eq_refl) as (Hin & _ & Hall).
  fold (fieldMax g) in Hin, Hall. split; [|exact Hall].
  destruct Hin as [Heq|Hin]; [|exact Hin].
  destruct g as [|z g]; [congruence|]. exfalso.
  apply Forall_inv in Hall. apply Forall_inv in Hfin.
  rewrite Heq in Hall. destruct z; discriminate.
Qed.

Lemma fieldMin_least (g : Vertices) :
  Forall (fun z => is_finite z = true) g -> g <> [] ->
  In (fieldMin g) g /\ Forall (fun z => le (fieldMin g) z = true) g.
Proof.
  intros Hfin Hne.
  destruct (fold_min_spec g Hfin PInf eq_refl) as (Hin & _ & Hall).
  fold (fieldMin g) in Hin, Hall. split; [|exact Hall].
  destruct Hin as [Heq|Hin]; [|exact Hin].
  destruct g as [|z g]; [congruence|]. exfalso.
  apply Forall_inv in Hall. apply Forall_inv in Hfin.
  rewrite Heq in Hall. destruct z; discriminate.
Qed.

Lemma fold_max_min_pair (g : Vertices) (a b : num) :
  fold_left (fun '(max2, min2) z =>
               (if gt z max2 then z else max2,
                if lt z min2 then z else min2)) g (a, b)
  = (fold_left (fun max2 z => if gt z max2 then z else max2) g a,
     fold_left (fun min2 z => if lt z min2 then z else min2) g b).
Proof.
  revert a b. induction g as [|z g IH]; intros a b; simpl;
    [reflexivity | apply IH].
Qed.

(** The range [toHeightmap] encodes with: each bound is the one the
    options supply, and the actual extreme of the field when they supply
    none. *)
Lemma encodingRange_spec (g : Vertices) (options : TerrainOptions) :
  encodingRange g options
  = (match maxHeight options with Some M => M | None => fieldMax g end,
     match minHeight options with Some m => m | None => fieldMin g end).
Proof.
  unfold encodingRange, fieldMax, fieldMin.
  destruct (maxHeight options) as [M|], (minHeight options) as [m|]; simpl;
    try reflexivity; rewrite fold_max_min_pair; reflexivity.
Qed.

Lemma greyPixel_write (data : list Z) (i v : Z) :
  0 <= i -> i * 4 + 3 < Z.of_nat (length data) ->
  greyPixel
    (aset (aset (aset (aset data (i * 4 + 2) v) (i * 4 + 1) v) (i * 4) v)
       (i * 4 + 3) 255) i v.
Proof.
  intros Hi Hlen. unfold greyPixel. repeat split.
  - rewrite aget_aset_ne by lia. apply aget_aset_eq.
    rewrite !length_aset. lia.
  - rewrite !(aget_aset_ne _ _ (i * 4 + 1)) by lia. apply aget_aset_eq.
    rewrite !length_aset. lia.
  - rewrite !(aget_aset_ne _ _ (i * 4 + 2)) by lia. apply aget_aset_eq. lia.
  - apply aget_aset_eq. rewrite !length_aset. lia.
Qed.

Lemma greyPixel_keep (data : list Z) (i j v w : Z) :
  i <> j -> greyPixel data j w ->
  greyPixel
    (aset (aset (aset (aset data (i * 4 + 2) v) (i * 4 + 1) v) (i * 4) v)
       (i * 4 + 3) 255) j w.
Proof.
  intros Hne (H0 & H1 & H2 & H3). unfold greyPixel.
  rewrite !aget_aset_ne by lia. repeat split; assumption.
Qed.

(** [toHeightmap] returns a canvas of [widthSegments + 1] columns and
    [heightSegments + 1] rows; the pixel of sample [i] holds the grey
    level of the sample, converted by the store into the byte array, in
    its three colour channels, and 255 in its alpha channel. *)
Lemma toHeightmap_pixels (g : Vertices) (options : TerrainOptions) :
  let rows := heightSegments options + 1 in
  let cols := widthSegments options + 1 in
  let maxH := fst (encodingRange g options) in
  let minH := snd (encodingRange g options) in
  0 < rows -> 0 < cols -> rows * cols <= Z.of_nat (length g) ->
  exists canvas,
    toHeightmap g options = Some canvas
    /\ img_width canvas = cols /\ img_height canvas = rows
    /\ Z.of_nat (length (img_data canvas)) = 4 * cols * rows
    /\ forall i z, 0 <= i < rows * cols -> aget g i = Some z ->
         greyPixel (img_data canvas) i
           (ToUint8Clamp (greyLevel z minH (sub maxH minH))).
Proof.
  intros rows cols maxH minH Hrows Hcols Hlen. unfold toHeightmap.
  destruct (encodingRange g options) as [max min] eqn:Hrange.
  simpl in maxH, minH. fold rows cols. rewrite decide_True by lia.
  set (L := Z.to_nat (4 * cols * rows)).
  pose (P := fun (n : Z) (data : list Z) =>
    length data = L
    /\ forall i z, 0 <= i < n -> aget g i = Some z ->
         greyPixel data i (ToUint8Clamp (greyLevel z min (sub max min)))).
  set (inner := fun (row col : Z) (data : list Z) =>
    aget g (row * cols + col) ≫= fun z =>
    let v := ToUint8Clamp (greyLevel z min (sub max min)) in
    Some (aset (aset (aset (aset data ((row * cols + col) * 4 + 2) v)
                        ((row * cols + col) * 4 + 1) v)
                  ((row * cols + col) * 4) v)
            ((row * cols + col) * 4 + 3) 255)).
  destruct (for_rangeM_inv (fun row d => P (row * cols) d) 0 rows
    (fun row data => for_rangeM 0 cols (inner row) data)
    (replicate L 0)) as (data & Hdata & HlenD & Hpix).
  - lia.
  - split; [apply length_replicate|]. intros i z Hi. lia.
  - intros row d Hrow HP.
    destruct (for_rangeM_inv (fun col d => P (row * cols + col) d) 0 cols
      (inner row) d) as (d1 & Hd1 & HP1).
    + lia.
    + rewrite Z.add_0_r. exact HP.
    + intros col d1 Hcol (Hl1 & Hp1). unfold inner.
      assert (Hidx : 0 <= row * cols + col < rows * cols) by nia.
      destruct (aget_lt_Some g (row * cols + col)) as [z Hz]; [lia|].
      rewrite Hz. simpl. eexists. split; [reflexivity|]. split.
      * rewrite !length_aset. exact Hl1.
      * intros i z' Hi Hz'.
        destruct (decide (i = row * cols + col)) as [->|Hne].
        -- rewrite Hz in Hz'. injection Hz' as <-.
           apply greyPixel_write; [lia|]. rewrite Hl1. unfold L. nia.
        -- apply greyPixel_keep; [congruence|]. apply Hp1; [lia|exact Hz'].
    + exists d1. split; [exact Hd1|].
      replace ((row + 1) * cols) with (row * cols + cols) by lia. exact HP1.
  - unfold inner in Hdata. rewrite Hdata. simpl.
    eexists. split; [reflexivity|]. simpl.
    split; [reflexivity|]. split; [reflexivity|].
    split; [rewrite HlenD; unfold L; nia | exact Hpix].
Qed.

Lemma Qfloor_bounds (q : Q) (lo hi : Z) :
  (inject_Z lo <= q)%Q -> (q < inject_Z hi)%Q -> lo <= Qfloor q < hi.
Proof.
  intros Hlo Hhi. split.
  - rewrite <- (Qfloor_Z lo). apply Qfloor_resp_le. exact Hlo.
  - pose proof (Qfloor_le q) as Hf. rewrite Zlt_Qlt.
    eapply Qle_lt_trans; eassumption.
Qed.

Lemma ToUint8Clamp_byte (a : num) : 0 <= ToUint8Clamp a <= 255.
Proof.
  destruct a as [q| | |]; simpl; try lia.
  destruct (decide (q <= 0)%Qc) as [|Hpos]; [lia|].
  destruct (decide (Qc_of_Z 255 <= q)%Qc) as [|Hlt]; [lia|].
  apply Qcnot_le_lt in Hpos, Hlt.
  assert (Hf : 0 <= Qfloor q < 255).
  { apply Qfloor_bounds.
    - apply Qlt_le_weak. exact Hpos.
    - exact Hlt. }
  destruct (q - Qc_of_Z (Qfloor q) ?= Q2Qc (1 # 2))%Qc;
    try destruct (Z.even (Qfloor q)); lia.
Qed.







(** ** A range of zero spread *)


Lemma Qccompare_minus (c m : Qc) : (c + - m ?= 0)%Qc = (c ?= m)%Qc.
Proof.
  destruct (c ?= m)%Qc eqn:Hcmp.
  - apply Qceq_alt in Hcmp. subst c. apply (proj1 (Qceq_alt _ _)). ring.
  - apply Qclt_alt in Hcmp. apply (proj1 (Qclt_alt _ _)). qc2q. lra.
  - apply Qcgt_alt in Hcmp. apply (proj1 (Qcgt_alt _ _)). qc2q. lra.
Qed.

Lemma greyLevel_zero_spread (c m : Qc) :
  greyLevel (Fin c) (Fin m) (sub (Fin m) (Fin m))
  = match (c ?= m)%Qc with Eq => NaN | Gt => PInf | Lt => NInf end.
Proof.
  unfold greyLevel, sub, neg, add, div.
  rewrite decide_True by ring. rewrite Qccompare_minus.
  destruct (c ?= m)%Qc; reflexivity.
Qed.




(** ** The box blur, line by line *)

Lemma boxBlurH_lines (scl tcl0 : list num) (w h r : Z) :
  boxBlurH scl tcl0 w h r
  = for_range 0 h (fun i t => blurLine scl (i * w) 1 w r t) tcl0.
Proof.
  unfold boxBlurH, blurLine. apply for_range_ext. intros i t Hi.
  replace (i * w + 1 * (w - 1)) with (i * w + w - 1) by lia.
  replace (i * w + r * 1) with (i * w + r) by lia.
  rewrite (for_range_ext 0 r
             (fun j v => add v (toNum (aget scl (i * w + j * 1))))
             (fun j v => add v (toNum (aget scl (i * w + j))))).
  - reflexivity.
  - intros j v Hj. rewrite Z.mul_1_r. reflexivity.
Qed.

Lemma boxBlurV_lines (scl tcl0 : list num) (w h r : Z) :
  boxBlurV scl tcl0 w h r
  = for_range 0 w (fun i t => blurLine scl i w h r t) tcl0.
Proof.
  reflexivity.
Qed.

Lemma blurLine_length (scl : list num) (base stride len r : Z) (t : list num) :
  length (blurLine scl base stride len r t) = length t.
Proof.
  unfold blurLine.
  repeat (apply (for_range_inv' (fun _ s => length (tcl s) = length t));
          [|intros j s _ Hs; simpl; rewrite length_aset; exact Hs]).
  reflexivity.
Qed.





Lemma aget_replicate {A} (n : nat) (x : A) (k : Z) :
  0 <= k < Z.of_nat n -> aget (replicate n x) k = Some x.
Proof.
  intros Hk. unfold aget. rewrite decide_True by lia.
  apply lookup_replicate_2. lia.
Qed.

Lemma aset_replicate {A} (n : nat) (x : A) (k : Z) :
  aset (replicate n x) k x = replicate n x.
Proof.
  destruct (aget (replicate n x) k) as [y|] eqn:Hy.
  - apply aset_same. rewrite Hy. f_equal. unfold aget in Hy.
    destruct (decide (0 <= k)); [|discriminate].
    apply lookup_replicate in Hy. apply (proj1 Hy).
  - apply aset_out. exact Hy.
Qed.

Lemma average_constant (r : Z) (c : Qc) :
  0 <= r ->
  mul (Fin (Qc_of_Z (r + r + 1) * c)%Qc) (div (ofZ 1) (ofZ (r + r + 1)))
  = Fin c.
Proof.
  intros Hr. unfold div, ofZ.
  assert (Hnz : Qc_of_Z (r + r + 1) <> 0%Qc).
  { rewrite <- Z2Qc_inj_0. intros Heq. apply Z2Qc_inj in Heq. lia. }
  rewrite decide_False by exact Hnz. simpl. f_equal.
  rewrite Z2Qc_inj_1. field. exact Hnz.
Qed.

Lemma blurLine_constant (n : nat) (c : Qc) (base stride len r : Z) :
  0 <= r -> 2 * r < len ->
  (forall x, 0 <= x < len -> 0 <= base + x * stride < Z.of_nat n) ->
  blurLine (replicate n (Fin c)) base stride len r (replicate n (Fin c))
  = replicate n (Fin c).
Proof.
  intros Hr Hfit Hidx. set (s := replicate n (Fin c)).
  assert (Hrd : forall x, 0 <= x < len ->
            toNum (aget s (base + x * stride)) = Fin c).
  { intros x Hx. unfold s. rewrite aget_replicate by (apply Hidx; exact Hx).
    reflexivity. }
  unfold blurLine.
  replace (toNum (aget s base)) with (Fin c)
    by (rewrite <- (Hrd 0) by lia; do 2 f_equal; lia).
  replace (toNum (aget s (base + stride * (len - 1)))) with (Fin c)
    by (rewrite <- (Hrd (len - 1)) by lia; do 2 f_equal; lia).
  set (V := Fin (Qc_of_Z (r + r + 1) * c)%Qc).
  assert (Hsum : for_range 0 r
            (fun j v => add v (toNum (aget s (base + j * stride))))
            (mul (ofZ (r + 1)) (Fin c)) = V).
  { cut (for_range 0 r
           (fun j v => add v (toNum (aget s (base + j * stride))))
           (mul (ofZ (r + 1)) (Fin c)) = Fin (Qc_of_Z (r + 1 + r) * c)%Qc).
    { intros ->. unfold V. do 3 f_equal. lia. }
    apply (for_range_inv (fun j v => v = Fin (Qc_of_Z (r + 1 + j) * c)%Qc));
      [exact Hr | |].
    - simpl. unfold ofZ. do 3 f_equal. lia.
    - intros j v Hj ->. rewrite Hrd by lia. simpl. apply f_equal.
      replace (r + 1 + (j + 1)) with (r + 1 + j + 1) by lia.
      rewrite (Z2Qc_inj_add (r + 1 + j) 1), Z2Qc_inj_1. ring. }
  rewrite Hsum.
  assert (Hkeep : add V (sub (Fin c) (Fin c)) = V).
  { unfold V. simpl. f_equal. ring. }
  assert (Hw : forall k, aset s k (mul V (div (ofZ 1) (ofZ (r + r + 1)))) = s).
  { intros k. unfold V. rewrite average_constant by exact Hr.
    apply aset_replicate. }
  pose (Q2 := fun (j : Z) (st : Window) =>
    val st = V /\ tcl st = s /\ li st = base
    /\ ri st = base + (r + j) * stride).
  pose (Q3 := fun (j : Z) (st : Window) =>
    val st = V /\ tcl st = s /\ li st = base + (j - r - 1) * stride
    /\ ri st = base + (r + j) * stride).
  pose (Q4 := fun (j : Z) (st : Window) =>
    val st = V /\ tcl st = s /\ li st = base + (j - r - 1) * stride).
  match goal with
  | |- tcl (for_range _ _ ?b4 (for_range _ _ ?b3 (for_range _ _ ?b2 ?st0)))
       = _ =>
      assert (H2 : Q2 (r + 1) (for_range 0 (r + 1) b2 st0));
      [|assert (H3 : Q3 (len - r)
                  (for_range (r + 1) (len - r) b3 (for_range 0 (r + 1) b2 st0)));
        [|assert (H4 : Q4 len
                   (for_range (len - r) len b4
                      (for_range (r + 1) (len - r) b3
                         (for_range 0 (r + 1) b2 st0))))]]
  end.
  - apply for_range_inv; [lia | |].
    + unfold Q2. cbn [val ti li ri tcl]. repeat split. f_equal. lia.
    + intros j st Hj (Hval & Ht & Hli & Hri). unfold Q2.
      cbn [val ti li ri tcl]. rewrite Hval, Ht, Hri, Hrd by lia.
      rewrite Hkeep, Hw. repeat split; [exact Hli | lia].
  - apply for_range_inv; [lia | |].
    + destruct H2 as (Hval & Ht & Hli & Hri). unfold Q3.
      repeat split; [assumption | assumption | lia | lia].
    + intros j st Hj (Hval & Ht & Hli & Hri). unfold Q3.
      cbn [val ti li ri tcl]. rewrite Hval, Ht, Hri, Hli, !Hrd by lia.
      rewrite Hkeep, Hw. repeat split; lia.
  - apply for_range_inv; [lia | |].
    + destruct H3 as (Hval & Ht & Hli & Hri). unfold Q4.
      repeat split; [assumption | assumption | lia].
    + intros j st Hj (Hval & Ht & Hli). unfold Q4.
      cbn [val ti li ri tcl]. rewrite Hval, Ht, Hli, Hrd by lia.
      rewrite Hkeep, Hw. repeat split; lia.
  - apply H4.
Qed.

Lemma boxBlurH_length (scl t : list num) (w h r : Z) :
  length (boxBlurH scl t w h r) = length t.
Proof.
  rewrite boxBlurH_lines.
  apply (for_range_inv' (fun _ t' => length t' = length t)); [reflexivity|].
  intros i t' _ Ht. rewrite blurLine_length. exact Ht.
Qed.

Lemma boxBlurV_length (scl t : list num) (w h r : Z) :
  length (boxBlurV scl t w h r) = length t.
Proof.
  rewrite boxBlurV_lines.
  apply (for_range_inv' (fun _ t' => length t' = length t)); [reflexivity|].
  intros i t' _ Ht. rewrite blurLine_length. exact Ht.
Qed.



(** A box that fits in the rows, or in the columns, leaves a constant
    field as it is. *)
Lemma boxBlurH_constant (c : Qc) (w h r : Z) :
  0 <= r -> 2 * r < w -> 0 <= h ->
  let s := replicate (Z.to_nat (w * h)) (Fin c) in
  boxBlurH s s w h r = s.
Proof.
  intros Hr Hfit Hh s. rewrite boxBlurH_lines.
  apply (for_range_inv' (fun _ t => t = s)); [reflexivity|].
  intros i t Hi ->. apply blurLine_constant; [exact Hr | exact Hfit |].
  intros x Hx. nia.
Qed.

Lemma boxBlurV_constant (c : Qc) (w h r : Z) :
  0 <= r -> 2 * r < h -> 0 <= w ->
  let s := replicate (Z.to_nat (w * h)) (Fin c) in
  boxBlurV s s w h r = s.
Proof.
  intros Hr Hfit Hw s. rewrite boxBlurV_lines.
  apply (for_range_inv' (fun _ t => t = s)); [reflexivity|].
  intros i t Hi ->. apply blurLine_constant; [exact Hr | exact Hfit |].
  intros x Hx. nia.
Qed.

(** The first loop of [boxBlur] makes the target a copy of the source. *)
Lemma copy_loop (scl tcl0 : list num) :
  length tcl0 = length scl ->
  for_range 0 (Z.of_nat (length scl))
    (fun i t => aset t i (toNum (aget scl i))) tcl0 = scl.
Proof.
  intros Hlen.
  pose (P := fun (n : Z) (t : list num) =>
    length t = length scl
    /\ forall k, 0 <= k < n -> aget t k = aget scl k).
  assert (HP : P (Z.of_nat (length scl))
            (for_range 0 (Z.of_nat (length scl))
               (fun i t => aset t i (toNum (aget scl i))) tcl0)).
  { apply for_range_inv; [lia | |].
    - split; [exact Hlen|]. intros k Hk. lia.
    - intros j t Hj [Hl Hk]. split; [rewrite length_aset; exact Hl|].
      intros k Hk'. destruct (decide (k = j)) as [->|Hne].
      + rewrite aget_aset_eq by lia.
        destruct (aget_lt_Some scl j) as [z Hz]; [lia|].
        rewrite Hz. reflexivity.
      + rewrite aget_aset_ne by congruence. apply Hk. lia. }
  destruct HP as [Hl Hk]. apply aget_ext; [exact Hl|].
  intros i. destruct (decide (0 <= i < Z.of_nat (length scl))) as [Hi|Hi].
  - apply Hk. exact Hi.
  - rewrite !aget_out by lia. reflexivity.
Qed.

(** What [boxBlur] leaves in its two arrays: the source holds its own
    horizontal blur, the target the vertical blur of that. *)
Lemma boxBlur_arrays (scl tcl0 : list num) (w h r : Z) :
  length tcl0 = length scl ->
  boxBlur scl tcl0 w h r
  = (boxBlurH scl scl w h r, boxBlurV (boxBlurH scl scl w h r) scl w h r).
Proof.
  intros Hlen. unfold boxBlur. rewrite copy_loop by exact Hlen. reflexivity.
Qed.

Lemma for_range_over_array {A S} (l : list A) (d : A) (f : A -> S -> S)
    (s : S) :
  for_range 0 (Z.of_nat (length l)) (fun i s => f (default d (aget l i)) s) s
  = fold_left (fun s b => f b s) l s.
Proof.
  revert s. induction l as [|b l IH] using rev_ind; intros s.
  - reflexivity.
  - rewrite length_app. simpl length.
    replace (Z.of_nat (length l + 1)) with (Z.of_nat (length l) + 1) by lia.
    rewrite for_range_last by lia. rewrite fold_left_app. simpl.
    rewrite <- IH. f_equal.
    + unfold aget. rewrite decide_True by lia. rewrite Nat2Z.id.
      rewrite lookup_app_r by lia. rewrite Nat.sub_diag. reflexivity.
    + apply for_range_ext. intros j s' Hj. f_equal. f_equal. unfold aget.
      rewrite !decide_True by lia. rewrite lookup_app_l by lia. reflexivity.
Qed.

Lemma boxesForGauss_length (sigma : Qc) (boxCount : nat) :
  length (boxesForGauss sigma boxCount) = boxCount.
Proof.
  unfold boxesForGauss. rewrite length_map, length_seqZ. lia.
Qed.

(** [gaussianBoxBlur] as a fold over the box sizes. *)
Lemma gaussianBoxBlur_fold (src : list num) (w h : Z) (radius : Qc)
    (boxCount : nat) :
  gaussianBoxBlur src w h radius boxCount
  = fold_left (fun s b => boxBlur (fst s) (snd s) w h ((b - 1) / 2))
      (boxesForGauss radius boxCount)
      (src, replicate (length src) (Fin 0%Qc)).
Proof.
  unfold gaussianBoxBlur.
  rewrite <- (for_range_over_array (boxesForGauss radius boxCount) 0
                (fun b s => boxBlur (fst s) (snd s) w h ((b - 1) / 2))).
  rewrite boxesForGauss_length. apply for_range_ext.
  intros j [s t] Hj. reflexivity.
Qed.

(** ** The box sizes *)

(** The integer square root of the integer part of [x] is the integer
    part of the square root of [x]: [k <= sqrt x < k + 1]. *)
Lemma floor_sqrt_spec (x : Q) :
  (0 <= x)%Q ->
  let k := Z.sqrt (Qfloor x) in
  0 <= k /\ (inject_Z (k * k) <= x)%Q /\ (x < inject_Z ((k + 1) * (k + 1)))%Q.
Proof.
  intros Hx k.
  assert (Hn : 0 <= Qfloor x).
  { rewrite <- (Qfloor_Z 0). apply Qfloor_resp_le. exact Hx. }
  pose proof (Z.sqrt_spec (Qfloor x) Hn) as [Hlo Hhi]. fold k in Hlo, Hhi.
  split; [apply Z.sqrt_nonneg|]. split.
  - eapply Qle_trans; [|apply Qfloor_le]. rewrite <- Zle_Qle. exact Hlo.
  - eapply Qlt_le_trans; [apply Qlt_floor|]. rewrite <- Zle_Qle. lia.
Qed.


Lemma ToInt16_odd (z : Z) : Z.odd (ToInt16 z) = Z.odd z.
Proof.
  unfold ToInt16. rewrite Z.mod_eq by lia.
  replace (z + 2 ^ 15 - 2 ^ 16 * ((z + 2 ^ 15) / 2 ^ 16) - 2 ^ 15)
    with (z + 2 * (- 2 ^ 15 * ((z + 2 ^ 15) / 2 ^ 16))) by lia.
  apply Z.odd_add_mul_2.
Qed.

Lemma lower_width_odd (x : Z) :
  Z.odd (if decide (Z.rem x 2 = 0) then x - 1 else x) = true.
Proof.
  destruct (decide (Z.rem x 2 = 0)) as [He|Ho].
  - rewrite Z.odd_sub. simpl. 
    assert (Z.odd x = false).
    { rewrite <- Z.negb_even. apply negb_false_iff. apply Zeven_bool_iff.
      apply Zeven_ex_iff. exists (Z.quot x 2).
      pose proof (Z.quot_rem' x 2). lia. }
    rewrite H. reflexivity.
  - destruct (Z.odd x) eqn:Hodd; [reflexivity|]. exfalso. apply Ho.
    rewrite <- Z.negb_even in Hodd. apply negb_false_iff in Hodd.
    apply Zeven_bool_iff, Zeven_ex_iff in Hodd. destruct Hodd as [k ->].
    rewrite Z.mul_comm. apply Z.rem_mul. lia.
Qed.

(** Every box width is odd. *)
Lemma boxesForGauss_odd (sigma : Qc) (boxCount : nat) :
  Forall (fun b => Z.odd b = true) (boxesForGauss sigma boxCount).
Proof.
  unfold boxesForGauss. apply Forall_forall. intros b Hb.
  apply list_elem_of_fmap in Hb. destruct Hb as (i & -> & _).
  rewrite ToInt16_odd. destruct (decide (i < _)).
  - apply lower_width_odd.
  - rewrite Z.odd_add. rewrite lower_width_odd. reflexivity.
Qed.


(** ** The Gaussian blur *)


Lemma half_of_odd (b : Z) : Z.odd b = true -> 2 * ((b - 1) / 2) = b - 1.
Proof.
  intros Hodd. apply Zodd_bool_iff, Zodd_ex_iff in Hodd.
  destruct Hodd as [k ->]. replace (2 * k + 1 - 1) with (k * 2) by lia.
  rewrite Z.div_mul by lia. lia.
Qed.



(** Claim C8, at the constant field of 3 x 3 samples of height 7 with
    [radius = 2] and [boxCount = 3].  The boxes are 3, 3 and 5 wide; the
    box of width 5 is wider than a row, so [boxBlurH] reads past the end
    of the row and of the array instead of extending the last value, and
    the returned field holds [NaN] in all samples but the first. *)
Theorem gaussianBoxBlur_wide_box_not_constant :
  boxesForGauss (Qc_of_Z 2) 3 = [3; 3; 5]
  /\ map valueOf
       (snd (gaussianBoxBlur (replicate 9 (ofZ 7)) 3 3 (Qc_of_Z 2) 3))
     = [Some (7 # 1)%Q; None; None; None; None; None; None; None; None]
  /\ map is_nan
       (snd (gaussianBoxBlur (replicate 9 (ofZ 7)) 3 3 (Qc_of_Z 2) 3))
     = [false; true; true; true; true; true; true; true; true].
Proof.
  vm_compute. repeat split; reflexivity.
Qed.

(** Where the boxes fit, the edges are extended as the comments of
    [boxBlurH] say.  For every constant field of [w * h] samples of a
    finite height [c], every radius and every [boxCount >= 1] such that
    each box is at least 1 wide and no wider than the field is wide or
    high, [gaussianBoxBlur] returns a field in which every sample equals
    [c], and leaves [src] constant as well. *)
Lemma gaussianBoxBlur_constant_field (c : Qc) (w h : Z) (radius : Qc)
    (boxCount : nat) :
  0 <= w -> 0 <= h -> (1 <= boxCount)%nat ->
  Forall (fun b => 1 <= b /\ b <= w /\ b <= h)
    (boxesForGauss radius boxCount) ->
  let field := replicate (Z.to_nat (w * h)) (Fin c) in
  gaussianBoxBlur field w h radius boxCount = (field, field)
  /\ forall i, 0 <= i < w * h ->
       aget (snd (gaussianBoxBlur field w h radius boxCount)) i
       = Some (Fin c).
Proof.
  intros Hw Hh Hcount Hfit field.
  assert (Hconst : gaussianBoxBlur field w h radius boxCount = (field, field)).
  { rewrite gaussianBoxBlur_fold.
    pose proof (boxesForGauss_odd radius boxCount) as Hodd.
    pose proof (boxesForGauss_length radius boxCount) as Hlen.
    destruct (boxesForGauss radius boxCount) as [|b boxes];
      [simpl in Hlen; lia|]. clear Hlen Hcount.
    assert (Hpass : forall b t, length t = length field ->
              Z.odd b = true -> 1 <= b /\ b <= w /\ b <= h ->
              boxBlur field t w h ((b - 1) / 2) = (field, field)).
    { intros b' t Ht Hb' (H1 & Hbw & Hbh).
      pose proof (half_of_odd b' Hb') as Hhalf.
      rewrite boxBlur_arrays by exact Ht. unfold field.
      rewrite boxBlurH_constant by lia. rewrite boxBlurV_constant by lia.
      reflexivity. }
    simpl. rewrite Hpass;
      [| apply length_replicate | exact (Forall_inv Hodd)
       | exact (Forall_inv Hfit)].
    apply Forall_inv_tail in Hodd, Hfit.
    induction boxes as [|b' boxes IH]; [reflexivity|].
    simpl. rewrite Hpass;
      [| reflexivity | exact (Forall_inv Hodd) | exact (Forall_inv Hfit)].
    apply IH; eapply Forall_inv_tail; eassumption. }
  split; [exact Hconst|]. intros i Hi. rewrite Hconst. simpl.
  unfold field. apply aget_replicate. lia.
Qed.

Example gaussianBoxBlur_constant_field_example :
  gaussianBoxBlur (replicate 9 (Fin (Qc_of_Z 7))) 3 3 1%Qc 3
  = (replicate 9 (Fin (Qc_of_Z 7)), replicate 9 (Fin (Qc_of_Z 7))).
Proof.
  apply (gaussianBoxBlur_constant_field (Qc_of_Z 7) 3 3 1%Qc 3);
    try lia.
  replace (boxesForGauss 1%Qc 3) with [1; 1; 3] by (vm_compute; reflexivity).
  repeat constructor; lia.
Qed.


(** ** The round trip *)




(** Whatever the platform draws: when [drawImage] returns a canvas of the
    size it is asked for, the round trip leaves every sample from
    [widthSegments * heightSegments] on at the height the new plane gave
    it, so the last row and the last column of the field are lost. *)
Lemma roundTrip_keeps_plane_heights (E : Env) (g : Vertices)
    (options : TerrainOptions) (verts' : Vertices) :
  let plane := newPlane E (width options) (height options)
                 (widthSegments options) (heightSegments options) in
  0 <= widthSegments options -> 0 <= heightSegments options ->
  (forall src W H img, drawImage E src W H = Some img ->
     img_width img = W /\ img_height img = H) ->
  Z.of_nat (length plane)
    = (widthSegments options + 1) * (heightSegments options + 1) ->
  roundTrip E g options = Some verts' ->
  forall k, widthSegments options * heightSegments options <= k ->
    aget verts' k = aget plane k.
Proof.
  intros plane Hws Hhs Hsize Hlen Hrt k Hk. unfold roundTrip in Hrt.
  destruct (toHeightmap g options) as [canvas|] eqn:Hc; [|discriminate].
  simpl in Hrt. fold plane in Hrt.
  destruct (drawImage E canvas (widthSegments options)
              (heightSegments options)) as [img|] eqn:Hdraw.
  - destruct (Hsize _ _ _ _ Hdraw) as [HW HH].
    destruct (fromHeightmap_leaves_rest E
                (withHeightmap options (HmImage canvas)) canvas img plane)
      as (v & Hv & Hrest); try assumption; try reflexivity.
    rewrite Hv in Hrt. injection Hrt as <-. apply Hrest. exact Hk.
  - unfold fromHeightmap in Hrt. simpl in Hrt. rewrite Hdraw in Hrt.
    discriminate.
Qed.

(** Claim C1, at a flat field of 2 x 2 samples of height 100 encoded with
    the explicit range [-100, 100].  The round trip returns the heights
    100, 0, 0, 0: sample 3 comes back as 0, which is 100 away from the
    original, more than the quantization unit 200 / 255. *)
Theorem roundTrip_loses_last_row_and_column :
  let g := [ofZ 100; ofZ 100; ofZ 100; ofZ 100] in
  let options := twoByTwo HmOther in
  img_data <$> toHeightmap g options
  = Some [255; 255; 255; 255;  255; 255; 255; 255;
          255; 255; 255; 255;  255; 255; 255; 255]
  /\ map valueOf <$> roundTrip testEnv g options
     = Some [Some (100 # 1)%Q; Some 0%Q; Some 0%Q; Some 0%Q]
  /\ withinQuantum (ofZ 100) (ofZ 0) (ofZ (-100)) (ofZ 100) = false.
Proof.
  vm_compute. repeat split; reflexivity.
Qed.


Lemma roundTrip_keeps_plane_heights_witness :
  exists verts',
    roundTrip testEnv [ofZ 100; ofZ 100; ofZ 100; ofZ 100] (twoByTwo HmOther)
    = Some verts'
    /\ aget verts' 3 = Some (Fin 0%Qc).
Proof.
  destruct (roundTrip testEnv [ofZ 100; ofZ 100; ofZ 100; ofZ 100]
              (twoByTwo HmOther)) as [verts'|] eqn:Hrt;
    [|vm_compute in Hrt; discriminate].
  exists verts'. split; [reflexivity|].
  apply (roundTrip_keeps_plane_heights testEnv
           [ofZ 100; ofZ 100; ofZ 100; ofZ 100] (twoByTwo HmOther) verts').
  - simpl. lia.
  - simpl. lia.
  - intros src W H img. simpl. unfold nearestNeighbour.
    destruct (decide (0 < W /\ 0 < H)); [|discriminate].
    intros Himg. injection Himg as <-. split; reflexivity.
  - reflexivity.
  - exact Hrt.
  - simpl. lia.
Defined.

(** ** Exceptions *)

Lemma for_range_split {S} lo mid hi (body : Z -> S -> S) s :
  lo <= mid <= hi ->
  for_range lo hi body s = for_range mid hi body (for_range lo mid body s).
Proof.
  intros Hm. unfold for_range.
  replace (hi - lo) with ((mid - lo) + (hi - mid)) by lia.
  rewrite seqZ_app by lia. rewrite fold_left_app.
  replace (lo + (mid - lo)) with mid by lia. reflexivity.
Qed.

Lemma for_rangeM_thrown {S} lo hi (body : Z -> S -> option S) :
  for_range lo hi (fun j os => os ≫= body j) None = None.
Proof.
  destruct (Z_le_gt_dec lo hi) as [Hle|Hgt].
  - apply (for_range_inv (fun _ os => os = None)); [exact Hle|reflexivity|].
    intros j os _ ->. reflexivity.
  - apply for_range_empty. lia.
Qed.

(** A loop throws when its body throws at some iteration that is
    reached. *)
Lemma for_rangeM_throws {S} (P : Z -> S -> Prop) lo hi j0
    (body : Z -> S -> option S) s :
  lo <= j0 < hi ->
  P lo s ->
  (forall j s, lo <= j < j0 -> P j s ->
     exists s', body j s = Some s' /\ P (j + 1) s') ->
  (forall s, P j0 s -> body j0 s = None) ->
  for_rangeM lo hi body s = None.
Proof.
  intros Hj0 H0 Hstep Hfail.
  destruct (for_rangeM_inv P lo j0 body s) as (s' & Hs' & HP);
    [lia | exact H0 | exact Hstep |].
  unfold for_rangeM in *. rewrite (for_range_split lo j0 hi) by lia.
  rewrite Hs'. rewrite (for_range_first j0 hi) by lia. simpl.
  rewrite (Hfail s' HP). apply for_rangeM_thrown.
Qed.

(** [fromHeightmap] throws exactly when the vertex array is shorter than
    the canvas has pixels (given an image that the platform draws). *)
Theorem fromHeightmap_throws_iff_short (E : Env) (options : TerrainOptions)
    (src img : ImageData) (verts : Vertices) :
  heightmap options = HmImage src ->
  drawImage E src (widthSegments options) (heightSegments options)
    = Some img ->
  0 <= img_width img -> 0 <= img_height img ->
  (fromHeightmap E verts options = None
   <-> Z.of_nat (length verts) < img_width img * img_height img).
Proof.
  intros Hsrc Hdraw HW HH. split.
  - intros Hnone.
    destruct (Z_lt_le_dec (Z.of_nat (length verts))
                (img_width img * img_height img)) as [Hlt|Hle];
      [exact Hlt|].
    destruct (fromHeightmap_samples E options src img Hsrc Hdraw verts
                HW HH Hle) as (v & Hv & _).
    rewrite Hv in Hnone. discriminate.
  - intros Hshort. unfold fromHeightmap. rewrite Hsrc. simpl.
    rewrite Hdraw. simpl.
    set (W := img_width img) in *. set (H := img_height img) in *.
    set (n := Z.of_nat (length verts)) in *.
    assert (HHpos : 0 < H) by nia.
    set (x0 := n / H). set (y0 := n mod H).
    assert (Hn : n = x0 * H + y0)
      by (unfold x0, y0; rewrite Z.mul_comm; apply Z.div_mod; lia).
    assert (Hy0 : 0 <= y0 < H) by (apply Z.mod_pos_bound; lia).
    assert (Hx0 : 0 <= x0 < W).
    { split; [apply Z.div_pos; lia|]. apply Z.div_lt_upper_bound; nia. }
    apply (for_rangeM_throws
             (fun _ v => length v = length verts) 0 W x0);
      [exact Hx0 | reflexivity | |].
    + intros x v Hx Hlen.
      apply (for_rangeM_inv (fun _ v' => length v' = length verts) 0 H);
        [lia | exact Hlen |].
      intros y v' Hy Hlen'.
      destruct (aget_lt_Some v' (x * H + y)) as [z Hz];
        [rewrite Hlen'; fold n; nia|].
      rewrite Hz. simpl. eexists. split; [reflexivity|].
      rewrite length_aset. exact Hlen'.
    + intros v Hlen.
      apply (for_rangeM_throws
               (fun _ v' => length v' = length verts) 0 H y0);
        [exact Hy0 | exact Hlen | |].
      * intros y v' Hy Hlen'.
        destruct (aget_lt_Some v' (x0 * H + y)) as [z Hz];
          [rewrite Hlen'; fold n; nia|].
        rewrite Hz. simpl. eexists. split; [reflexivity|].
        rewrite length_aset. exact Hlen'.
      * intros v' Hlen'. rewrite aget_out; [reflexivity|].
        right. rewrite Hlen'. fold n. lia.
Qed.

Lemma fromHeightmap_throws_iff_short_witness :
  fromHeightmap testEnv [] (twoByTwo (HmImage whitePixel)) = None
  <-> Z.of_nat (length ([] : Vertices)) < 1 * 1.
Proof.
  apply (fromHeightmap_throws_iff_short testEnv
           (twoByTwo (HmImage whitePixel)) whitePixel whitePixel []).
  - reflexivity.
  - reflexivity.
  - simpl. lia.
  - simpl. lia.
Defined.

Lemma toHeightmap_short (g : Vertices) (options : TerrainOptions) :
  let rows := heightSegments options + 1 in
  let cols := widthSegments options + 1 in
  0 < rows -> 0 < cols ->
  Z.of_nat (length g) < rows * cols -> toHeightmap g options = None.
Proof.
  intros rows cols Hrows Hcols.
  intros Hshort. unfold toHeightmap.
  destruct (encodingRange g options) as [max min]. fold rows cols.
  rewrite decide_True by lia.
  set (n := Z.of_nat (length g)) in *.
  set (x0 := n / cols). set (y0 := n mod cols).
  assert (Hn : n = x0 * cols + y0)
    by (unfold x0, y0; rewrite Z.mul_comm; apply Z.div_mod; lia).
  assert (Hy0 : 0 <= y0 < cols) by (apply Z.mod_pos_bound; lia).
  assert (Hx0 : 0 <= x0 < rows).
  { split; [apply Z.div_pos; lia|]. apply Z.div_lt_upper_bound; nia. }
  match goal with
  | |- (for_rangeM 0 rows ?body ?d ≫= _) = None =>
      assert (Hloop : for_rangeM 0 rows body d = None)
  end.
  { apply (for_rangeM_throws (fun _ _ => True) 0 rows x0);
      [exact Hx0 | exact I | |].
    + intros row d Hrow _.
      apply (for_rangeM_inv (fun _ _ => True) 0 cols); [lia | exact I |].
      intros col d' Hcol _.
      destruct (aget_lt_Some g (row * cols + col)) as [z Hz];
        [fold n; nia|].
      rewrite Hz. simpl. eexists. split; [reflexivity | exact I].
    + intros d _.
      apply (for_rangeM_throws (fun _ _ => True) 0 cols y0);
        [exact Hy0 | exact I | |].
      * intros col d' Hcol _.
        destruct (aget_lt_Some g (x0 * cols + col)) as [z Hz];
          [fold n; nia|].
        rewrite Hz. simpl. eexists. split; [reflexivity | exact I].
      * intros d' _. rewrite aget_out; [reflexivity|].
        right. fold n. lia. }
  rewrite Hloop. reflexivity.
Qed.

(** [toHeightmap] throws exactly when the field has fewer samples than
    the image has pixels. *)
Theorem toHeightmap_throws_iff_short (g : Vertices) (options : TerrainOptions) :
  let rows := heightSegments options + 1 in
  let cols := widthSegments options + 1 in
  0 < rows -> 0 < cols ->
  (toHeightmap g options = None <-> Z.of_nat (length g) < rows * cols).
Proof.
  intros rows cols Hrows Hcols. split.
  - intros Hnone.
    destruct (Z_lt_le_dec (Z.of_nat (length g)) (rows * cols)) as [Hlt|Hle];
      [exact Hlt|].
    destruct (toHeightmap_pixels g options Hrows Hcols Hle) as (c & Hc & _).
    rewrite Hc in Hnone. discriminate.
  - apply toHeightmap_short; assumption.
Qed.

Lemma toHeightmap_throws_iff_short_witness :
  toHeightmap [] unitRange = None <-> Z.of_nat (length ([] : Vertices)) < 1 * 1.
Proof.
  apply (toHeightmap_throws_iff_short [] unitRange); simpl; lia.
Defined.

(** The image [toHeightmap] returns is well formed: four bytes per pixel,
    each between 0 and 255. *)
Theorem toHeightmap_image_bytes (g : Vertices) (options : TerrainOptions)
    (canvas : ImageData) :
  0 <= heightSegments options -> 0 <= widthSegments options ->
  toHeightmap g options = Some canvas ->
  img_width canvas = widthSegments options + 1
  /\ img_height canvas = heightSegments options + 1
  /\ Z.of_nat (length (img_data canvas))
     = 4 * img_width canvas * img_height canvas
  /\ Forall (fun b => 0 <= b <= 255) (img_data canvas).
Proof.
  intros Hhs Hws Hc.
  set (rows := heightSegments options + 1).
  set (cols := widthSegments options + 1).
  destruct (Z_lt_le_dec (Z.of_nat (length g)) (rows * cols)) as [Hlt|Hle].
  - rewrite (toHeightmap_short g options) in Hc by (fold rows cols; lia).
    discriminate.
  - destruct (toHeightmap_pixels g options) as (c & Hc' & Hw & Hh & Hlen & Hpix);
      [lia | lia | exact Hle |].
    rewrite Hc in Hc'. injection Hc' as <-.
    split; [exact Hw|]. split; [exact Hh|]. split; [rewrite Hw, Hh; exact Hlen|].
    apply Forall_lookup. intros p b Hp.
    assert (Hplt : Z.of_nat p < 4 * (widthSegments options + 1) * (heightSegments options + 1)).
    { apply lookup_lt_Some in Hp. lia. }
    set (i := Z.of_nat p / 4). set (c := Z.of_nat p mod 4).
    assert (Hpi : Z.of_nat p = i * 4 + c)
      by (unfold i, c; rewrite Z.mul_comm; apply Z.div_mod; lia).
    assert (Hc4 : 0 <= c < 4) by (apply Z.mod_pos_bound; lia).
    assert (Hi : 0 <= i < rows * cols).
    { split; [apply Z.div_pos; lia|]. apply Z.div_lt_upper_bound; [lia|].
      unfold rows, cols. lia. }
    destruct (aget_lt_Some g i) as [z Hz]; [lia|].
    destruct (Hpix i z Hi Hz) as (H0 & H1 & H2 & H3).
    assert (Hb : aget (img_data canvas) (i * 4 + c) = Some b).
    { unfold aget. rewrite decide_True by lia. rewrite <- Hpi, Nat2Z.id.
      exact Hp. }
    pose proof (ToUint8Clamp_byte
      (greyLevel z (encodingRange g options).2
         (sub (encodingRange g options).1 (encodingRange g options).2))) as Hbyte.
    assert (Hcases : c = 0 \/ c = 1 \/ c = 2 \/ c = 3) by lia.
    destruct Hcases as [Hc0|[Hc0|[Hc0|Hc0]]]; rewrite Hc0 in Hb.
    + rewrite Z.add_0_r in Hb. rewrite H0 in Hb. injection Hb as <-. exact Hbyte.
    + rewrite H1 in Hb. injection Hb as <-. exact Hbyte.
    + rewrite H2 in Hb. injection Hb as <-. exact Hbyte.
    + rewrite H3 in Hb. injection Hb as <-. lia.
Qed.

Lemma toHeightmap_image_bytes_witness :
  toHeightmap [ofZ 1] unitRange = Some whitePixel
  /\ Forall (fun b => 0 <= b <= 255) (img_data whitePixel).
Proof.
  assert (Hc : toHeightmap [ofZ 1] unitRange = Some whitePixel)
    by (vm_compute; reflexivity).
  split; [exact Hc|].
  apply (toHeightmap_image_bytes [ofZ 1] unitRange whitePixel);
    [simpl; lia | simpl; lia | exact Hc].
Defined.

(** ** Order and end points of the codec *)







Lemma toHeightmap_Some_dims (g : Vertices) (options : TerrainOptions)
    (canvas : ImageData) :
  toHeightmap g options = Some canvas ->
  0 < heightSegments options + 1 /\ 0 < widthSegments options + 1.
Proof.
  unfold toHeightmap. destruct (encodingRange g options) as [max min].
  destruct (decide _) as [[Hc Hr]|]; [|discriminate]. intros _. lia.
Qed.







(** A flat field encoded without a supplied range: the range found is
    the single height of the field, the rescaled value of every sample
    is [NaN] (zero divided by zero), and the image is black. *)
Theorem toHeightmap_flat_field_black (g : Vertices) (options : TerrainOptions)
    (canvas : ImageData) (c : Qc) :
  maxHeight options = None -> minHeight options = None ->
  Forall (fun z => z = Fin c) g ->
  toHeightmap g options = Some canvas ->
  encodingRange g options = (Fin c, Fin c)
  /\ forall i,
       0 <= i < (heightSegments options + 1) * (widthSegments options + 1) ->
       greyLevel (Fin c) (Fin c) (sub (Fin c) (Fin c)) = NaN
       /\ greyPixel (img_data canvas) i 0.
Proof.
  intros Hmax Hmin Hflat Hc.
  destruct (toHeightmap_Some_dims g options canvas Hc) as [Hrows Hcols].
  destruct (Z_lt_le_dec (Z.of_nat (length g))
              ((heightSegments options + 1) * (widthSegments options + 1)))
    as [Hlt|Hlen].
  { rewrite (toHeightmap_short g options) in Hc by assumption.
    discriminate. }
  assert (Hne : g <> []).
  { intros ->. simpl in Hlen. nia. }
  assert (Hfin : Forall (fun z => is_finite z = true) g).
  { eapply Forall_impl; [exact Hflat|]. intros z ->. reflexivity. }
  destruct (fieldMax_greatest g Hfin Hne) as [Hinmax _].
  destruct (fieldMin_least g Hfin Hne) as [Hinmin _].
  rewrite Forall_forall in Hflat.
  apply list_elem_of_In in Hinmax, Hinmin.
  apply Hflat in Hinmax, Hinmin.
  assert (Hrange : encodingRange g options = (Fin c, Fin c)).
  { rewrite encodingRange_spec, Hmax, Hmin, Hinmax, Hinmin. reflexivity. }
  split; [exact Hrange|]. intros i Hi.
  assert (Hnan : greyLevel (Fin c) (Fin c) (sub (Fin c) (Fin c)) = NaN).
  { rewrite greyLevel_zero_spread.
    replace (c ?= c)%Qc with Eq; [reflexivity|].
    symmetry. apply Qceq_alt. reflexivity. }
  split; [exact Hnan|].
  destruct (toHeightmap_pixels g options Hrows Hcols Hlen)
    as (c' & Hc' & _ & _ & _ & Hpix).
  rewrite Hc in Hc'. injection Hc' as <-.
  rewrite Hrange in Hpix. cbn [fst snd] in Hpix.
  destruct (aget_lt_Some g i) as [z Hz]; [lia|].
  assert (Hzc : z = Fin c).
  { apply Hflat. unfold aget in Hz. destruct (decide (0 <= i)); [|discriminate].
    eapply list_elem_of_lookup_2. exact Hz. }
  subst z. pose proof (Hpix i _ Hi Hz) as Hp. rewrite Hnan in Hp. exact Hp.
Qed.

Lemma toHeightmap_flat_field_black_witness :
  greyPixel [0; 0; 0; 255; 0; 0; 0; 255] 1 0.
Proof.
  destruct (toHeightmap_flat_field_black [ofZ 7; ofZ 7]
              {| after := None; heightmap := HmOther;
                 maxHeight := None; minHeight := None;
                 steps := ofZ 1; turbulent := false; useBufferGeometry := false;
                 widthSegments := 1; width := ofZ 1024;
                 heightSegments := 0; height := ofZ 1024; mesh := None |}
              {| img_width := 2; img_height := 1;
                 img_data := [0; 0; 0; 255; 0; 0; 0; 255] |}
              (Qc_of_Z 7) eq_refl eq_refl) as [_ Hpix].
  - repeat constructor.
  - vm_compute. reflexivity.
  - destruct (Hpix 1) as [_ Hp]; [simpl; lia|]. exact Hp.
Defined.

(** ** The widths of the boxes *)

Lemma lower_width_bounds (k : Z) :
  1 <= k ->
  let wl := if decide (Z.rem k 2 = 0) then k - 1 else k in
  1 <= wl <= k /\ k <= wl + 1.
Proof.
  intros Hk wl. unfold wl. destruct (decide (Z.rem k 2 = 0)) as [He|Ho]; [|lia].
  assert (k <> 1) by (intros ->; discriminate He). lia.
Qed.

(** The real number [mIdeal] of [boxesForGauss], and its rounding, in
    fractions: with [w * w <= x < (w + 2) * (w + 2)] and
    [x = S / N + 1], the quotient
    [(S - N w w - 4 N w - 3 N) / (-4 w - 4)] lies in (0, N]. *)
Lemma mIdeal_bounds (S N w : Q) :
  (0 < N)%Q -> (1 <= w)%Q ->
  (w * w <= S * / N + 1)%Q -> (S * / N + 1 < (w + 2) * (w + 2))%Q ->
  let mI := ((S + - (N * w * w) + - ((4 # 1) * N * w) + - ((3 # 1) * N))
             * / ((- 4 # 1) * w + - (4 # 1)))%Q in
  (0 < mI <= N)%Q
  /\ (mI * (w * w - 1) + (N - mI) * ((w + 2) * (w + 2) - 1) == S)%Q.
Proof.
  intros HN Hw Hlo Hhi mI.
  assert (HS : (S * / N * N == S)%Q) by (field; lra).
  set (u := (S * / N)%Q) in *.
  assert (H1 : ((w * w - 1) * N <= u * N)%Q)
    by (apply Qmult_le_compat_r; lra).
  assert (H2 : (u * N < ((w + 2) * (w + 2) - 1) * N)%Q)
    by (apply Qmult_lt_compat_r; lra).
  rewrite HS in H1, H2.
  set (D := ((- 4 # 1) * w + - (4 # 1))%Q).
  assert (HD : (D < 0)%Q) by (unfold D; lra).
  set (T := (S + - (N * w * w) + - ((4 # 1) * N * w) + - ((3 # 1) * N))%Q).
  assert (HmD : (mI * D == T)%Q) by (unfold mI; fold T D; field; lra).
  assert (HT1 : (T < 0)%Q) by (unfold T; nra).
  assert (HT2 : (N * D <= T)%Q) by (unfold T, D; nra).
  split; [split|].
  - assert (Hneg : (0 < (- T) * / (- D))%Q).
    { apply Qlt_shift_div_l; lra. }
    assert (Heq : (mI == (- T) * / (- D))%Q) by (unfold mI; fold T D; field; lra).
    rewrite Heq. exact Hneg.
  - assert (Heq : (mI == (- T) * / (- D))%Q) by (unfold mI; fold T D; field; lra).
    rewrite Heq. apply Qle_shift_div_r; lra.
  - unfold mI. fold T D. unfold T, D. field. lra.
Qed.

Lemma radicand_ge_one (sigma : Qc) (n : nat) :
  (1 <= n)%nat ->
  (1 <= this (Qc_of_Z 12 * sigma * sigma / Qc_of_Z (Z.of_nat n) + 1)%Qc)%Q.
Proof.
  intros Hn.
  assert (HN : (0 < inject_Z (Z.of_nat n))%Q) by (rewrite <- (Zlt_Qlt 0); lia).
  qc2q. change (inject_Z 12) with (12 # 1)%Q.
  assert (Hinv : (0 < / inject_Z (Z.of_nat n))%Q) by (apply Qinv_lt_0_compat; exact HN).
  assert (Hsq : (0 <= (12 # 1) * sigma * sigma)%Q) by nra.
  assert (Hp : (0 <= (12 # 1) * sigma * sigma * / inject_Z (Z.of_nat n))%Q).
  { apply Qmult_le_0_compat; [exact Hsq | apply Qlt_le_weak, Hinv]. }
  lra.
Qed.

Lemma boxesForGauss_shape (sigma : Qc) (n : nat) :
  (1 <= n)%nat ->
  let N := Qc_of_Z (Z.of_nat n) in
  let x := (Qc_of_Z 12 * sigma * sigma / N + 1)%Qc in
  exists wl m : Z,
    Z.odd wl = true /\ 1 <= wl /\ 0 <= m <= Z.of_nat n
    /\ (Qc_of_Z (wl * wl) <= x)%Qc /\ (x < Qc_of_Z ((wl + 2) * (wl + 2)))%Qc
    /\ boxesForGauss sigma n
       = map (fun i => ToInt16 (if decide (i < m) then wl else wl + 2))
           (seqZ 0 (Z.of_nat n))
    /\ (- Qc_of_Z (2 * (wl + 1))
        <= Qc_of_Z (m * (wl * wl - 1)
                    + (Z.of_nat n - m) * ((wl + 2) * (wl + 2) - 1))
           - Qc_of_Z 12 * sigma * sigma
        <= Qc_of_Z (2 * (wl + 1)))%Qc.
Proof.
  intros Hn N x. unfold boxesForGauss. fold N. fold x.
  pose proof (radicand_ge_one sigma n Hn) as Hx1. fold N in Hx1. fold x in Hx1.
  set (k := Z.sqrt (Qfloor x)).
  destruct (floor_sqrt_spec x) as (Hk0 & Hklo & Hkhi); [lra|]. fold k in Hk0, Hklo, Hkhi.
  assert (Hk1 : 1 <= k).
  { unfold k. change 1 with (Z.sqrt 1). apply Z.sqrt_le_mono.
    rewrite <- (Qfloor_Z 1). apply Qfloor_resp_le. exact Hx1. }
  pose proof (lower_width_bounds k Hk1) as [Hwl Hkw].
  pose proof (lower_width_odd k) as Hodd.
  set (wl := if decide (Z.rem k 2 = 0) then k - 1 else k) in *.
  assert (Hwlo : (inject_Z (wl * wl) <= x)%Q).
  { eapply Qle_trans; [|exact Hklo]. rewrite <- Zle_Qle. nia. }
  assert (Hwhi : (x < inject_Z ((wl + 2) * (wl + 2)))%Q).
  { eapply Qlt_le_trans; [exact Hkhi|]. rewrite <- Zle_Qle. nia. }
  set (mIdeal := ((Qc_of_Z 12 * sigma * sigma - N * Qc_of_Z wl * Qc_of_Z wl
                   - Qc_of_Z 4 * N * Qc_of_Z wl - Qc_of_Z 3 * N)
                  / (Qc_of_Z (-4) * Qc_of_Z wl - Qc_of_Z 4))%Qc).
  set (m := Qfloor (mIdeal + Q2Qc (1 # 2))%Qc).
  exists wl, m.
  assert (HN : (0 < inject_Z (Z.of_nat n))%Q) by (rewrite <- (Zlt_Qlt 0); lia).
  assert (Hw1 : (1 <= inject_Z wl)%Q) by (rewrite <- (Zle_Qle 1); lia).
  destruct (mIdeal_bounds ((12 # 1) * sigma * sigma) (inject_Z (Z.of_nat n))
              (inject_Z wl)) as [[HmI0 HmIN] Hvar]; [exact HN | exact Hw1 | | |].
  { rewrite <- inject_Z_mult. revert Hwlo. unfold x, N. clear. intros H. qc2q. exact H. }
  { replace ((inject_Z wl + 2) * (inject_Z wl + 2))%Q
      with (inject_Z ((wl + 2) * (wl + 2))).
    - revert Hwhi. unfold x, N. clear. intros H. qc2q. exact H.
    - rewrite inject_Z_mult, inject_Z_plus. reflexivity. }
  set (mIq := ((12 * sigma * sigma +
      - (inject_Z (Z.of_nat n) * inject_Z wl * inject_Z wl) +
      - (4 * inject_Z (Z.of_nat n) * inject_Z wl) +
      - (3 * inject_Z (Z.of_nat n))) *
     / (-4 * inject_Z wl + - (4)))%Q) in *.
  assert (HmE : (this mIdeal == mIq)%Q).
  { unfold mIdeal, mIq, N. clear. qc2q. reflexivity. }
  assert (Hhalf : (this (mIdeal + Q2Qc (1 # 2))%Qc == mIq + (1 # 2))%Q).
  { unfold Qcplus, Q2Qc. cbn [this]. rewrite !Qred_correct.
    apply Qplus_comp; [exact HmE | reflexivity]. }
  assert (Hm : 0 <= m <= Z.of_nat n).
  { assert (0 <= m < Z.of_nat n + 1); [|lia].
    apply Qfloor_bounds; rewrite Hhalf.
    - change (inject_Z 0) with 0%Q. lra.
    - rewrite inject_Z_plus. change (inject_Z 1) with 1%Q. lra. }
  assert (Hfl : (inject_Z m <= mIq + (1 # 2))%Q /\ (mIq + (1 # 2) < inject_Z m + 1)%Q).
  { rewrite <- Hhalf. split; [apply Qfloor_le|].
    pose proof (Qlt_floor (this (mIdeal + Q2Qc (1 # 2))%Qc)) as Hlt.
    fold m in Hlt. rewrite inject_Z_plus in Hlt. exact Hlt. }
  split; [exact Hodd|]. split; [lia|]. split; [exact Hm|].
  split; [exact Hwlo|]. split; [exact Hwhi|]. split; [reflexivity|].
  clear Hhalf HmE Hwlo Hwhi Hx1 Hklo Hkhi. clearbody mIq.
  assert (Hp1 : (0 <= (mIq + (1 # 2) - inject_Z m) * (inject_Z wl + 1))%Q).
  { apply Qmult_le_0_compat; lra. }
  assert (Hp2 : (0 <= (inject_Z m + 1 - (mIq + (1 # 2))) * (inject_Z wl + 1))%Q).
  { apply Qmult_le_0_compat; lra. }
  unfold Qcle, Qcminus, Qcplus, Qcmult, Qcopp, Q2Qc. cbn [this Qc_of_Z].
  rewrite !Qred_correct.
  unfold Z.sub.
  repeat first [rewrite inject_Z_plus | rewrite inject_Z_mult
               | rewrite inject_Z_opp].
  change (inject_Z 2) with (2 # 1)%Q. change (inject_Z 1) with 1%Q.
  change (inject_Z 12) with (12 # 1)%Q.
  revert Hp1 Hp2 Hvar.
  generalize (inject_Z m) (inject_Z wl) (inject_Z (Z.of_nat n)) (this sigma).
  intros M W Nn s Hp1 Hp2 Hvar.
  split; lra.
Qed.

Lemma ToInt16_small (z : Z) : - 2 ^ 15 <= z < 2 ^ 15 -> ToInt16 z = z.
Proof.
  intros Hz. unfold ToInt16. rewrite Z.mod_small; lia.
Qed.

Lemma map_threshold {A} (a b : A) (m n : Z) :
  0 <= m <= n ->
  map (fun i => if decide (i < m) then a else b) (seqZ 0 n)
  = replicate (Z.to_nat m) a ++ replicate (Z.to_nat (n - m)) b.
Proof.
  intros Hm. replace n with (m + (n - m)) at 1 by lia.
  rewrite seqZ_app by lia. rewrite map_app. f_equal.
  - apply list_eq. intros i. rewrite list_lookup_fmap.
    destruct (decide (i < Z.to_nat m)%nat) as [Hi|Hi].
    + rewrite lookup_seqZ_lt by lia. rewrite lookup_replicate_2 by lia.
      simpl. destruct (decide (0 + Z.of_nat i < m)); [reflexivity | lia].
    + rewrite lookup_seqZ_ge by lia. symmetry. apply lookup_replicate_None. lia.
  - apply list_eq. intros i. rewrite list_lookup_fmap.
    destruct (decide (i < Z.to_nat (n - m))%nat) as [Hi|Hi].
    + rewrite lookup_seqZ_lt by lia. rewrite lookup_replicate_2 by lia.
      simpl. destruct (decide (0 + m + Z.of_nat i < m)); [lia | reflexivity].
    + rewrite lookup_seqZ_ge by lia. symmetry. apply lookup_replicate_None. lia.
Qed.

Lemma boxSquares_app (l1 l2 : list Z) :
  boxSquares (l1 ++ l2) = boxSquares l1 + boxSquares l2.
Proof.
  unfold boxSquares. induction l1 as [|b l1 IH]; simpl; [reflexivity|].
  rewrite IH. lia.
Qed.

Lemma boxSquares_replicate (k : nat) (b : Z) :
  boxSquares (replicate k b) = Z.of_nat k * (b * b - 1).
Proof.
  unfold boxSquares. induction k as [|k IH]; simpl replicate; simpl foldr; [lia|].
  rewrite IH. lia.
Qed.

Lemma boxesForGauss_runs (sigma : Qc) (n : nat) :
  (1 <= n)%nat ->
  (Qc_of_Z 12 * sigma * sigma / Qc_of_Z (Z.of_nat n) + 1
   < Qc_of_Z (32766 * 32766))%Qc ->
  exists (wl : Z) (m : nat),
    Z.odd wl = true /\ 1 <= wl /\ (m <= n)%nat
    /\ (Qc_of_Z (wl * wl)
        <= Qc_of_Z 12 * sigma * sigma / Qc_of_Z (Z.of_nat n) + 1)%Qc
    /\ (Qc_of_Z 12 * sigma * sigma / Qc_of_Z (Z.of_nat n) + 1
        < Qc_of_Z ((wl + 2) * (wl + 2)))%Qc
    /\ boxesForGauss sigma n = replicate m wl ++ replicate (n - m) (wl + 2)
    /\ (- Qc_of_Z (2 * (wl + 1))
        <= Qc_of_Z (boxSquares (boxesForGauss sigma n))
           - Qc_of_Z 12 * sigma * sigma
        <= Qc_of_Z (2 * (wl + 1)))%Qc.
Proof.
  intros Hn Hbig.
  destruct (boxesForGauss_shape sigma n Hn)
    as (wl & m & Hodd & Hwl & Hm & Hlo & Hhi & Hbox & Hvar).
  assert (Hw : wl < 32766).
  { assert (H : (Qc_of_Z (wl * wl) < Qc_of_Z (32766 * 32766))%Qc).
    { eapply Qcle_lt_trans; eassumption. }
    apply Z2Qc_inj_lt in H. nia. }
  assert (Hruns : boxesForGauss sigma n
                  = replicate (Z.to_nat m) wl
                    ++ replicate (n - Z.to_nat m) (wl + 2)).
  { rewrite Hbox.
    rewrite (map_ext _ (fun i => if decide (i < m) then wl else wl + 2)).
    - rewrite map_threshold by lia. do 2 f_equal. lia.
    - intros i. destruct (decide (i < m)); apply ToInt16_small; lia. }
  exists wl, (Z.to_nat m). split; [exact Hodd|]. split; [exact Hwl|].
  split; [lia|]. split; [exact Hlo|]. split; [exact Hhi|].
  split; [exact Hruns|].
  rewrite Hruns, boxSquares_app, !boxSquares_replicate.
  replace (Z.of_nat (Z.to_nat m)) with m by lia.
  replace (Z.of_nat (n - Z.to_nat m)) with (Z.of_nat n - m) by lia.
  exact Hvar.
Qed.

(** The box widths are a run of one odd width [wl] followed by a run of
    the next odd width [wl + 2], where [wl] is the greatest odd integer
    whose square does not exceed [12 sigma^2 / n + 1]. *)
Theorem boxesForGauss_two_widths (sigma : Qc) (n : nat) :
  (1 <= n)%nat ->
  (Qc_of_Z 12 * sigma * sigma / Qc_of_Z (Z.of_nat n) + 1
   < Qc_of_Z (32766 * 32766))%Qc ->
  exists (wl : Z) (m : nat),
    Z.odd wl = true /\ 1 <= wl /\ (m <= n)%nat
    /\ (Qc_of_Z (wl * wl)
        <= Qc_of_Z 12 * sigma * sigma / Qc_of_Z (Z.of_nat n) + 1)%Qc
    /\ (Qc_of_Z 12 * sigma * sigma / Qc_of_Z (Z.of_nat n) + 1
        < Qc_of_Z ((wl + 2) * (wl + 2)))%Qc
    /\ boxesForGauss sigma n = replicate m wl ++ replicate (n - m) (wl + 2).
Proof.
  intros Hn Hbig.
  destruct (boxesForGauss_runs sigma n Hn Hbig)
    as (wl & m & Hodd & Hwl & Hm & Hlo & Hhi & Hruns & _).
  exists wl, m. repeat (split; [assumption|]). exact Hruns.
Qed.

Lemma boxesForGauss_two_widths_witness :
  exists (wl : Z) (m : nat),
    Z.odd wl = true
    /\ boxesForGauss 1%Qc 3 = replicate m wl ++ replicate (3 - m) (wl + 2).
Proof.
  destruct (boxesForGauss_two_widths 1%Qc 3)
    as (wl & m & Hodd & _ & _ & _ & _ & Hruns); [lia | reflexivity |].
  exists wl, m. split; [exact Hodd | exact Hruns].
Defined.



(** ** The box blur as a moving average *)
















Lemma column_index (w i i' y y' : Z) :
  0 <= i < w -> 0 <= i' < w -> i + y * w = i' + y' * w -> i = i' /\ y = y'.
Proof.
  intros Hi Hi' Heq.
  assert (Hy : y = y') by nia. subst y'. lia.
Qed.


(** ** The range and the length of the blurred field *)









Lemma boxBlur_length (scl tcl0 : list num) (w h r : Z) :
  length (fst (boxBlur scl tcl0 w h r)) = length scl
  /\ length (snd (boxBlur scl tcl0 w h r)) = length tcl0.
Proof.
  unfold boxBlur. cbn [fst snd]. split.
  - apply boxBlurH_length.
  - rewrite boxBlurV_length.
    apply (for_range_inv' (fun _ t => length t = length tcl0)); [reflexivity|].
    intros i t _ Ht. rewrite length_aset. exact Ht.
Qed.

(** [gaussianBoxBlur] keeps the number of samples, whatever its
    arguments: [src] keeps its length and the returned array has the
    length of [src]. *)
Theorem gaussianBoxBlur_lengths (src : list num) (w h : Z) (radius : Qc)
    (boxCount : nat) :
  length (fst (gaussianBoxBlur src w h radius boxCount)) = length src
  /\ length (snd (gaussianBoxBlur src w h radius boxCount)) = length src.
Proof.
  rewrite gaussianBoxBlur_fold.
  assert (Hgen : forall boxes s,
            length (fst s) = length src /\ length (snd s) = length src ->
            let s' := fold_left
                        (fun s b => boxBlur (fst s) (snd s) w h ((b - 1) / 2))
                        boxes s in
            length (fst s') = length src /\ length (snd s') = length src).
  { induction boxes as [|b boxes IH]; intros s Hs; [exact Hs|].
    simpl. apply IH.
    destruct (boxBlur_length (fst s) (snd s) w h ((b - 1) / 2)) as [H1 H2].
    rewrite H1, H2. exact Hs. }
  apply Hgen. cbn [fst snd]. rewrite length_replicate. split; reflexivity.
Qed.










(** ** A sample that is not a number *)

Lemma add_NaN_l (a : num) : add NaN a = NaN.
Proof. destruct a; reflexivity. Qed.

Lemma add_NaN_r (a : num) : add a NaN = NaN.
Proof. destruct a; reflexivity. Qed.

Lemma sub_NaN_l (a : num) : sub NaN a = NaN.
Proof. destruct a; reflexivity. Qed.

Lemma sub_NaN_r (a : num) : sub a NaN = NaN.
Proof. destruct a; reflexivity. Qed.

Lemma mul_NaN_l (a : num) : mul NaN a = NaN.
Proof. destruct a; reflexivity. Qed.

Lemma mul_NaN_r (a : num) : mul a NaN = NaN.
Proof. destruct a; reflexivity. Qed.

(** [blurLine] writes the positions of its line and no other. *)
Lemma blurLine_frame (scl tcl0 : list num) (base stride len r : Z) :
  0 <= r -> 2 * r < len ->
  forall i, (forall x, 0 <= x < len -> i <> base + x * stride) ->
    aget (blurLine scl base stride len r tcl0) i = aget tcl0 i.
Proof.
  intros Hr Hfit i Hi. unfold blurLine.
  pose (Q := fun (j : Z) (st : Window) =>
    ti st = base + j * stride /\ aget (tcl st) i = aget tcl0 i).
  match goal with
  | |- context [tcl (for_range _ _ ?b4 (for_range _ _ ?b3 (for_range _ _ ?b2 ?st0)))] =>
      assert (H2 : Q (r + 1) (for_range 0 (r + 1) b2 st0));
      [|assert (H3 : Q (len - r)
                  (for_range (r + 1) (len - r) b3 (for_range 0 (r + 1) b2 st0)));
        [|assert (H4 : Q len
                   (for_range (len - r) len b4
                      (for_range (r + 1) (len - r) b3
                         (for_range 0 (r + 1) b2 st0))))]]
  end.
  - apply for_range_inv; [lia | |].
    + unfold Q. cbn [ti tcl]. split; [lia | reflexivity].
    + intros j st Hj [Hti Ht]. unfold Q. cbn [ti tcl]. split; [lia|].
      rewrite aget_aset_ne; [exact Ht|]. rewrite Hti. intros Heq.
      apply (Hi j); [lia | congruence].
  - apply for_range_inv; [lia | exact H2 |].
    intros j st Hj [Hti Ht]. unfold Q. cbn [ti tcl]. split; [lia|].
    rewrite aget_aset_ne; [exact Ht|]. rewrite Hti. intros Heq.
    apply (Hi j); [lia | congruence].
  - apply for_range_inv; [lia | exact H3 |].
    intros j st Hj [Hti Ht]. unfold Q. cbn [ti tcl]. split; [lia|].
    rewrite aget_aset_ne; [exact Ht|]. rewrite Hti. intros Heq.
    apply (Hi j); [lia | congruence].
  - apply H4.
Qed.

(** The accumulator never recovers from a sample that is not a number:
    from the position where the sample enters the box to the end of the
    line, every sample written is [NaN]. *)
Lemma blurLine_nan (scl tcl0 : list num) (base stride len r p : Z) :
  0 <= r -> 2 * r < len -> 0 < stride -> 0 <= p < len ->
  toNum (aget scl (base + p * stride)) = NaN ->
  (forall x, 0 <= x < len ->
     0 <= base + x * stride < Z.of_nat (length tcl0)) ->
  forall x, Z.max 0 (p - r) <= x < len ->
    aget (blurLine scl base stride len r tcl0) (base + x * stride) = Some NaN.
Proof.
  intros Hr Hfit Hs Hp Hnan Hin. unfold blurLine.
  set (iarr := div (ofZ 1) (ofZ (r + r + 1))).
  set (fv := toNum (aget scl base)).
  set (lv := toNum (aget scl (base + stride * (len - 1)))).
  assert (Hfv : p = 0 -> fv = NaN).
  { intros ->. unfold fv. rewrite <- Hnan. do 2 f_equal. lia. }
  assert (Hsum : p = 0 \/ p <= r - 1 ->
            for_range 0 r
              (fun j v => add v (toNum (aget scl (base + j * stride))))
              (mul (ofZ (r + 1)) fv) = NaN).
  { apply (for_range_inv (fun j v => p = 0 \/ p <= j - 1 -> v = NaN));
      [exact Hr | |].
    - intros [H0|H0]; [|lia]. rewrite (Hfv H0). reflexivity.
    - intros j v Hj IH Hpj. destruct (decide (p = j)) as [->|Hne].
      + rewrite Hnan. apply add_NaN_r.
      + rewrite IH by lia. apply add_NaN_l. }
  pose (T := fun (j : Z) (t : list num) =>
    length t = length tcl0
    /\ forall x, Z.max 0 (p - r) <= x < j ->
         aget t (base + x * stride) = Some NaN).
  assert (HT : forall j t v, 0 <= j < len -> T j t ->
             (p <= r + j -> v = NaN) ->
             T (j + 1) (aset t (base + j * stride) (mul v iarr))).
  { intros j t v Hj [Hlen Hdone] Hv. split; [rewrite length_aset; exact Hlen|].
    intros x Hx. destruct (decide (x = j)) as [->|Hne].
    - rewrite aget_aset_eq by (rewrite Hlen; apply Hin; lia).
      rewrite Hv by lia. rewrite mul_NaN_l. reflexivity.
    - rewrite aget_aset_ne by nia. apply Hdone. lia. }
  pose (Q2 := fun (j : Z) (st : Window) =>
    ti st = base + j * stride /\ ri st = base + (r + j) * stride
    /\ (p = 0 \/ p <= r + j - 1 -> val st = NaN) /\ T j (tcl st)).
  pose (Q4 := fun (j : Z) (st : Window) =>
    ti st = base + j * stride
    /\ (p = 0 \/ p <= r + j - 1 -> val st = NaN) /\ T j (tcl st)).
  match goal with
  | |- context [tcl (for_range _ _ ?b4 (for_range _ _ ?b3 (for_range _ _ ?b2 ?st0)))] =>
      assert (H2 : Q2 (r + 1) (for_range 0 (r + 1) b2 st0));
      [|assert (H3 : Q2 (len - r)
                  (for_range (r + 1) (len - r) b3 (for_range 0 (r + 1) b2 st0)));
        [|assert (H4 : Q4 len
                   (for_range (len - r) len b4
                      (for_range (r + 1) (len - r) b3
                         (for_range 0 (r + 1) b2 st0))))]]
  end.
  - apply for_range_inv; [lia | |].
    + unfold Q2, T. cbn [val ti li ri tcl].
      split; [lia|]. split; [lia|]. split; [intros H0; apply Hsum; lia|].
      split; [reflexivity | intros x Hx; lia].
    + intros j st Hj (Hti & Hri & Hval & Ht). unfold Q2.
      cbn [val ti li ri tcl]. rewrite Hti, Hri.
      assert (Hv : p <= r + j ->
                add (val st)
                  (sub (toNum (aget scl (base + (r + j) * stride))) fv) = NaN).
      { intros Hpj. destruct (decide (p = r + j)) as [->|Hne].
        - rewrite Hnan, sub_NaN_l. apply add_NaN_r.
        - rewrite Hval by lia. apply add_NaN_l. }
      split; [lia|]. split; [lia|]. split.
      * intros [H0|H0]; [|apply Hv; lia].
        rewrite (Hfv H0), sub_NaN_r. apply add_NaN_r.
      * apply HT; [lia | exact Ht | exact Hv].
  - apply for_range_inv; [lia | exact H2 |].
    intros j st Hj (Hti & Hri & Hval & Ht). unfold Q2.
    cbn [val ti li ri tcl]. rewrite Hti, Hri.
    assert (Hv : p = 0 \/ p <= r + j ->
              add (val st)
                (sub (toNum (aget scl (base + (r + j) * stride)))
                     (toNum (aget scl (li st)))) = NaN).
    { intros Hpj. destruct (decide (p = r + j)) as [->|Hne].
      - rewrite Hnan, sub_NaN_l. apply add_NaN_r.
      - rewrite Hval by lia. apply add_NaN_l. }
    split; [lia|]. split; [lia|]. split; [intros H0; apply Hv; lia|].
    apply HT; [lia | exact Ht | intros H0; apply Hv; lia].
  - apply for_range_inv; [lia | |].
    + destruct H3 as (Hti & _ & Hval & Ht). unfold Q4.
      split; [exact Hti|]. split; [exact Hval | exact Ht].
    + intros j st Hj (Hti & Hval & Ht). unfold Q4.
      cbn [val ti li ri tcl]. rewrite Hti.
      assert (Hv : add (val st) (sub lv (toNum (aget scl (li st)))) = NaN).
      { rewrite Hval by lia. apply add_NaN_l. }
      split; [lia|]. split; [intros _; exact Hv|].
      apply HT; [lia | exact Ht | intros _; exact Hv].
  - destruct H4 as (_ & _ & _ & Hdone). exact Hdone.
Qed.

Lemma boxBlurH_nan (scl tcl0 : list num) (w h r y p : Z) :
  0 <= r -> 2 * r < w -> 0 <= y < h -> 0 <= p < w ->
  w * h <= Z.of_nat (length tcl0) ->
  aget scl (y * w + p) = Some NaN ->
  forall x, Z.max 0 (p - r) <= x < w ->
    aget (boxBlurH scl tcl0 w h r) (y * w + x) = Some NaN.
Proof.
  intros Hr Hfit Hy Hp Hlt Hnan. rewrite boxBlurH_lines.
  cut ((fun i t =>
          length t = length tcl0
          /\ (y < i -> forall x, Z.max 0 (p - r) <= x < w ->
                aget t (y * w + x) = Some NaN)) h
       (for_range 0 h (fun i t => blurLine scl (i * w) 1 w r t) tcl0)).
  { intros [_ Hdone]. apply Hdone. lia. }
  apply (for_range_inv (fun i t =>
          length t = length tcl0
          /\ (y < i -> forall x, Z.max 0 (p - r) <= x < w ->
                aget t (y * w + x) = Some NaN))); [lia | |].
  - split; [reflexivity | lia].
  - intros i t Hi [Hlen Hdone].
    split; [rewrite blurLine_length; exact Hlen|].
    intros Hyi x Hx. destruct (decide (i = y)) as [->|Hne].
    + replace (y * w + x) with (y * w + x * 1) by lia.
      apply (blurLine_nan scl t (y * w) 1 w r p); try lia.
      * replace (y * w + p * 1) with (y * w + p) by lia. rewrite Hnan.
        reflexivity.
      * intros x' Hx'. rewrite Hlen. nia.
    + rewrite blurLine_frame; [apply Hdone; lia | lia | lia |].
      intros x' Hx'. nia.
Qed.

Lemma boxBlurV_nan (scl tcl0 : list num) (w h r y p : Z) :
  0 <= r -> 2 * r < h -> 0 <= y < h -> 0 <= p < w ->
  w * h <= Z.of_nat (length tcl0) ->
  aget scl (y * w + p) = Some NaN ->
  forall x, Z.max 0 (y - r) <= x < h ->
    aget (boxBlurV scl tcl0 w h r) (x * w + p) = Some NaN.
Proof.
  intros Hr Hfit Hy Hp Hlt Hnan. rewrite boxBlurV_lines.
  cut ((fun i t =>
          length t = length tcl0
          /\ (p < i -> forall x, Z.max 0 (y - r) <= x < h ->
                aget t (x * w + p) = Some NaN)) w
       (for_range 0 w (fun i t => blurLine scl i w h r t) tcl0)).
  { intros [_ Hdone]. apply Hdone. lia. }
  apply (for_range_inv (fun i t =>
          length t = length tcl0
          /\ (p < i -> forall x, Z.max 0 (y - r) <= x < h ->
                aget t (x * w + p) = Some NaN))); [lia | |].
  - split; [reflexivity | lia].
  - intros i t Hi [Hlen Hdone].
    split; [rewrite blurLine_length; exact Hlen|].
    intros Hpi x Hx. destruct (decide (i = p)) as [->|Hne].
    + replace (x * w + p) with (p + x * w) by lia.
      apply (blurLine_nan scl t p w h r y); try lia.
      * replace (p + y * w) with (y * w + p) by lia. rewrite Hnan.
        reflexivity.
      * intros x' Hx'. rewrite Hlen. nia.
    + rewrite blurLine_frame; [apply Hdone; lia | lia | lia |].
      intros x' Hx' Heq.
      destruct (column_index w p i x x') as [Hpi' _]; lia.
Qed.

(** One sample that is not a number spoils a quadrant: after one pass of
    [boxBlur] with a box that fits, the row of that sample in [src] is
    [NaN] from [r] positions before it to the end of the row (a moving
    average would be [NaN] up to [r] positions after it only), and the
    target is [NaN] in every row from [r] rows above on, in all these
    columns. *)
Theorem boxBlur_nan_quadrant (scl tcl0 : list num) (w h r y p : Z) :
  0 <= r -> 2 * r < w -> 2 * r < h -> 0 <= y < h -> 0 <= p < w ->
  Z.of_nat (length scl) = w * h -> length tcl0 = length scl ->
  aget scl (y * w + p) = Some NaN ->
  forall x', Z.max 0 (p - r) <= x' < w ->
    aget (fst (boxBlur scl tcl0 w h r)) (y * w + x') = Some NaN
    /\ forall y', Z.max 0 (y - r) <= y' < h ->
         aget (snd (boxBlur scl tcl0 w h r)) (y' * w + x') = Some NaN.
Proof.
  intros Hr Hw Hh Hy Hp Hlen Hlt Hnan x' Hx'.
  rewrite boxBlur_arrays by exact Hlt. cbn [fst snd].
  assert (Hrow : aget (boxBlurH scl scl w h r) (y * w + x') = Some NaN).
  { apply (boxBlurH_nan scl scl w h r y p); try assumption; lia. }
  split; [exact Hrow|]. intros y' Hy'.
  apply (boxBlurV_nan (boxBlurH scl scl w h r) scl w h r y x');
    try assumption; lia.
Qed.

Lemma boxBlur_nan_quadrant_witness :
  aget (snd (boxBlur [ofZ 1; ofZ 2; ofZ 3; ofZ 4; NaN; ofZ 6; ofZ 7; ofZ 8; ofZ 9]
               nineSquares 3 3 1)) (0 * 3 + 2)
  = Some NaN.
Proof.
  destruct (boxBlur_nan_quadrant
              [ofZ 1; ofZ 2; ofZ 3; ofZ 4; NaN; ofZ 6; ofZ 7; ofZ 8; ofZ 9]
              nineSquares 3 3 1 1 1) with (x' := 2) as [_ Hcol].
  - lia.
  - lia.
  - lia.
  - lia.
  - lia.
  - reflexivity.
  - reflexivity.
  - reflexivity.
  - lia.
  - apply (Hcol 0). lia.
Defined.

(** ** Construction from an image *)

(** Construction from an image: on a platform whose planes have
    [(widthSegments + 1) * (heightSegments + 1)] vertices and whose
    canvases have the size they are created with, the vertex loop of
    [fromHeightmap] never leaves the vertex array, so the constructor
    throws exactly when drawing the image does; this holds for a new
    plane and for a reused mesh alike. *)
Theorem Terrain_new_image_throws_iff_drawing (E : Env)
    (options : TerrainOptions) (src : ImageData) :
  heightmap options = HmImage src ->
  0 <= widthSegments options -> 0 <= heightSegments options ->
  Z.of_nat (length (newPlane E (width options) (height options)
                      (widthSegments options) (heightSegments options)))
  = (widthSegments options + 1) * (heightSegments options + 1) ->
  (forall g, mesh options = Some g ->
     Z.of_nat (length (geo_vertices g))
     = (geo_widthSegments g + 1) * (geo_heightSegments g + 1)) ->
  (forall img,
     drawImage E src (widthSegments options) (heightSegments options)
     = Some img ->
     img_width img = widthSegments options
     /\ img_height img = heightSegments options) ->
  (Terrain_new E options = None
   <-> drawImage E src (widthSegments options) (heightSegments options)
       = None).
Proof.
  intros Hsrc Hws Hhs Hplane Hmesh Hsize. unfold Terrain_new.
  rewrite Hsrc.
  set (verts := match mesh options with
                | Some geometry =>
                    if decide (geo_widthSegments geometry = widthSegments options
                               /\ geo_heightSegments geometry
                                  = heightSegments options)
                    then map (fun _ => Fin 0%Qc) (geo_vertices geometry)
                    else newPlane E (width options) (height options)
                           (widthSegments options) (heightSegments options)
                | None =>
                    newPlane E (width options) (height options)
                      (widthSegments options) (heightSegments options)
                end).
  assert (Hlen : Z.of_nat (length verts)
                 = (widthSegments options + 1) * (heightSegments options + 1)).
  { unfold verts. destruct (mesh options) as [g|] eqn:Hm; [|apply Hplane].
    destruct (decide _) as [[Hw Hh]|_]; [|apply Hplane].
    rewrite length_map, (Hmesh g eq_refl), Hw, Hh. reflexivity. }
  destruct (drawImage E src (widthSegments options) (heightSegments options))
    as [img|] eqn:Hdraw.
  - destruct (Hsize img eq_refl) as [HW HH].
    destruct (fromHeightmap_samples E options src img Hsrc Hdraw verts)
      as (v & Hv & _); [lia | lia | rewrite HW, HH; nia |].
    rewrite Hv. simpl. split; discriminate.
  - split; [reflexivity|]. intros _. unfold fromHeightmap.
    rewrite Hsrc. simpl. rewrite Hdraw. reflexivity.
Qed.

Lemma Terrain_new_image_throws_iff_drawing_witness :
  Terrain_new testEnv (twoByTwo (HmImage whitePixel)) = None
  <-> drawImage testEnv whitePixel 1 1 = None.
Proof.
  apply (Terrain_new_image_throws_iff_drawing testEnv
           (twoByTwo (HmImage whitePixel)) whitePixel).
  - reflexivity.
  - simpl. lia.
  - simpl. lia.
  - reflexivity.
  - intros g Hg. discriminate Hg.
  - intros img Himg. injection Himg as <-. split; reflexivity.
Defined.
